(** * 3suite-comfy-pack: the orchestrator of src/main.js

    A shallow embedding of the orchestrator: the configuration records, the
    two remote calls, the workflow loader, the bulk pass, the file-watch
    index with its change handler, and the watch-handle lifecycle, followed
    by the properties the specification states about them. *)

From Stdlib Require Import ZArith.
From Stdlib Require QArith_base.
From stdpp Require Import base list strings gmap pretty.

Open Scope string_scope.
Open Scope list_scope.

#[local] Set Warnings "-register-all".

(** ** Data model *)

(** A parsed JSON value, as [JSON.parse] returns it.  [JNull] is also the
    JavaScript [null] that the loader returns on failure.  A rational
    stands for the number: the code passes numbers on and tests them
    against zero, nothing else. *)
Inductive json : Type :=
  | JNull
  | JBool (b : bool)
  | JNum (q : QArith_base.Q)
  | JStr (s : string)
  | JArr (items : list json)
  | JObj (fields : list (string * json)).

(** JavaScript truthiness of such a value: [null], [false], zero and the
    empty string are falsy, every array and object is truthy. *)
Definition truthy (v : json) : bool :=
  match v with
  | JNull => false
  | JBool b => b
  | JNum q => negb (QArith_base.Qnum q =? 0)%Z
  | JStr s => negb (String.eqb s "")
  | JArr _ => true
  | JObj _ => true
  end.

(** One entry of [endpoint.workflows]. *)
Record WorkflowConfig := {
  workflow : string;
  port : Z
}.

(** One entry of [config.get('endpoints', [])].  [workflows] may be absent,
    which the code reads as [endpoint.workflows || []]. *)
Record EndpointConfig := {
  url : string;
  workflows : option (list WorkflowConfig)
}.

Definition workflows_or_empty (endpoint : EndpointConfig) : list WorkflowConfig :=
  default [] (workflows endpoint).

(** The configuration snapshot the provider hands out. *)
Record Config := {
  verbose : bool;
  endpoints : list EndpointConfig
}.

(** ** The file-to-endpoints index of [setupFileWatchers] *)

Module Index.

(** [workflowFiles.add(filename)] on a JavaScript [Set], which keeps
    insertion order and ignores a value it already holds. *)
Definition Set_add (x : string) (s : list string) : list string :=
  if decide (x ∈ s) then s else s ++ [x].

(** The three statements on [fileToEndpoints] for one workflow entry:
    [has], [set(filename, [])] and [get(filename).push(url)]. *)
Definition record_endpoint (filename endpointUrl : string)
    (fileToEndpoints : gmap string (list string)) : gmap string (list string) :=
  let initialised :=
    if decide (is_Some (fileToEndpoints !! filename))
    then fileToEndpoints
    else <[filename := []]> fileToEndpoints in
  <[filename := default [] (initialised !! filename) ++ [endpointUrl]]> initialised.

(** The state of the two collections while the loops run. *)
Definition Collected : Type := list string * gmap string (list string).

Definition visit_workflow (endpoint : EndpointConfig)
    (acc : Collected) (workflowConfig : WorkflowConfig) : Collected :=
  let filename := workflow workflowConfig in
  (Set_add filename acc.1, record_endpoint filename (url endpoint) acc.2).

Definition visit_endpoint (acc : Collected) (endpoint : EndpointConfig) : Collected :=
  foldl (visit_workflow endpoint) acc (workflows_or_empty endpoint).

(** The nested loops of lines 151-161. *)
Definition collect (eps : list EndpointConfig) : Collected :=
  foldl visit_endpoint ([], ∅) eps.

Definition workflowFiles (eps : list EndpointConfig) : list string := (collect eps).1.
Definition fileToEndpoints (eps : list EndpointConfig) : gmap string (list string) :=
  (collect eps).2.

(** What the specification says the index holds for a path: the URLs of
    the endpoints referencing it, one per reference, in configuration
    order. *)
Definition references_in (filename : string) (endpoint : EndpointConfig) : list string :=
  flat_map (λ workflowConfig,
              if decide (workflow workflowConfig = filename) then [url endpoint] else [])
           (workflows_or_empty endpoint).

Definition referencing (eps : list EndpointConfig) (filename : string) : list string :=
  flat_map (references_in filename) eps.

(** Extending an index entry by further references. *)
Definition extend (entry : option (list string)) (more : list string) : option (list string) :=
  match more with
  | [] => entry
  | _ => Some (default [] entry ++ more)
  end.

End Index.

(** ** HTTP exchanges *)

(** What [fetch] is called with.  [req_body] is the value handed to
    [JSON.stringify]; [None] is a request without body. *)
Record Request := {
  req_url : string;
  req_method : string;
  req_headers : list (string * string);
  req_body : option json
}.

(** A JavaScript [Error], of which the code reads only [message]. *)
Record Error := {
  message : string
}.

Inductive Result (A : Type) : Type :=
  | Returned (value : A)
  | Thrown (error : Error).
Arguments Returned {A} value.
Arguments Thrown {A} error.

(** How one exchange goes: [await fetch(...)] throws, or it yields a
    response with its status, on which [await response.text()] later yields
    the body or throws. *)
Inductive FetchOutcome : Type :=
  | TransportError (error : Error)
  | Response (status : Z) (statusText : string) (text : Result string).

(** [response.ok]: the status is in the range 200-299. *)
Definition response_ok (status : Z) : bool :=
  (200 <=? status)%Z && (status <=? 299)%Z.

(** ** Effects *)

(** What an observer of the process sees. *)
Inductive Event : Type :=
  | Log (line : string)
  | ReadFile (filePath : string)
  | Fetch (promise : nat) (request : Request)
  | Settled (promise : nat) (value : Result bool).

(** A computation over a state [S]: the events it emits, the state it
    leaves, and how it ends. *)
Record Run (S A : Type) := {
  events : list Event;
  after : S;
  outcome : Result A
}.
Arguments events {S A} _.
Arguments after {S A} _.
Arguments outcome {S A} _.

Definition Task (S A : Type) : Type := S → Run S A.

Definition task_ret {S A} (a : A) : Task S A :=
  λ s, {| events := []; after := s; outcome := Returned a |}.

Definition task_bind {S A B} (k : A → Task S B) (m : Task S A) : Task S B :=
  λ s,
    let r := m s in
    match outcome r with
    | Returned a =>
        let r' := k a (after r) in
        {| events := events r ++ events r'; after := after r'; outcome := outcome r' |}
    | Thrown e => {| events := events r; after := after r; outcome := Thrown e |}
    end.

#[global] Instance task_mret {S} : MRet (Task S) := @task_ret S.
#[global] Instance task_mbind {S} : MBind (Task S) := @task_bind S.

Definition throw {S A} (e : Error) : Task S A :=
  λ s, {| events := []; after := s; outcome := Thrown e |}.

(** [try { body } catch (error) { handler }]. *)
Definition try_catch {S A} (body : Task S A) (handler : Error → Task S A) : Task S A :=
  λ s,
    let r := body s in
    match outcome r with
    | Returned _ => r
    | Thrown e =>
        let r' := handler e (after r) in
        {| events := events r ++ events r'; after := after r'; outcome := outcome r' |}
    end.

Definition emit {S} (e : Event) : Task S unit :=
  λ s, {| events := [e]; after := s; outcome := Returned tt |}.

(** [for (const x of xs) { body }]. *)
Fixpoint for_each {S A} (xs : list A) (body : A → Task S unit) : Task S unit :=
  match xs with
  | [] => mret tt
  | x :: rest => body x ;; for_each rest body
  end.

(** [console.log(message, ...args)]: one event per call.  The line is the
    arguments separated by a space, which is what is printed when the first
    argument holds no format specifier; no property below depends on the
    text of a line printed with further arguments. *)
Definition log {S} (text : string) (args : list string) : Task S unit :=
  emit (Log (foldl (λ line arg, line +:+ " " +:+ arg) text args)).

(** ** The world around the process *)

(** The file system, the JSON parser, the remote endpoints and the order in
    which the event loop resumes suspended calls. *)
Record Env := {
  path_resolve : string → string;
  readFileSync : string → Result string;
  JSON_parse : string → Result json;
  (** the outcome of the exchange started by the n-th [fetch] of the run *)
  fetch : nat → Request → FetchOutcome;
  (** the n-th choice of the event loop among the calls in flight *)
  next_ready : nat → nat
}.

(** An [async] function of the shape
    [try { A; const response = await fetch(request); B } catch (error) { C }]:
    [before] is A and yields the request, [on_outcome] is B, run when the
    exchange ends, and [on_error] is C.  B awaits once more, for the body of
    the response; the event loop resumes the function for both awaits in
    one turn, so that a call is in flight from [fetch] to the value of its
    promise. *)
Record AsyncCall := {
  before : Task unit Request;
  on_outcome : FetchOutcome → Task unit bool;
  on_error : Error → Task unit bool
}.

(** The rest of the body of a suspended call, from the outcome of its
    exchange to the value of its promise. *)
Definition finish (call : AsyncCall) (o : FetchOutcome) : Run unit bool :=
  try_catch (on_outcome call o) (on_error call) tt.

(** A call whose promise is not yet observed as settled: its promise, and
    the run of the rest of its body. *)
Record InFlight := {
  promise_id : nat;
  completion : Run unit bool
}.

(** The event loop: how many promises were created, how many scheduling
    choices were made, and the calls in flight; none is in flight when the
    process is idle.  The properties below follow one activity at a time, a
    bulk pass or the handling of one change event, started on an idle
    loop. *)
Record Loop := {
  created : nat;
  choices : nat;
  in_flight : list InFlight
}.

Definition idle (n k : nat) : Loop :=
  {| created := n; choices := k; in_flight := [] |}.

Definition M (A : Type) : Type := Task Loop A.

(** ** Observations on a trace *)

Definition is_log (e : Event) : bool :=
  match e with Log _ => true | _ => false end.

(** The trace without its log lines. *)
Definition quiet (t : list Event) : list Event :=
  List.filter (λ e, negb (is_log e)) t.

(** The requests sent, in the order of the calls of [fetch]. *)
Definition calls (t : list Event) : list Request :=
  flat_map (λ e, match e with Fetch _ r => [r] | _ => [] end) t.

(** The files read, in order. *)
Definition reads (t : list Event) : list string :=
  flat_map (λ e, match e with ReadFile p => [p] | _ => [] end) t.

Section Orchestrator.

Context (env : Env) (config : Config).

(** ** Logging (lines 9-17) *)

Definition logVerbose {S} (text : string) (args : list string) : Task S unit :=
  if verbose config then log text args else mret tt.

(** ** Promises *)

(** Calling an [async] function: its body runs up to the [await], the
    request is sent and the call is in flight.  Should the body throw
    before it sends anything, its [catch] block runs at once and the
    promise holds its value. *)
Definition spawn (call : AsyncCall) : M nat :=
  λ s,
    let p := created s in
    let r := before call tt in
    match outcome r with
    | Returned req =>
        {| events := events r ++ [Fetch p req];
           after := {| created := S p; choices := choices s;
                       in_flight := in_flight s ++
                         [{| promise_id := p; completion := finish call (fetch env p req) |}] |};
           outcome := Returned p |}
    | Thrown e =>
        let r' := on_error call e tt in
        {| events := events r ++ events r';
           after := {| created := S p; choices := choices s;
                       in_flight := in_flight s ++
                         [{| promise_id := p;
                             completion := {| events := []; after := tt;
                                              outcome := outcome r' |} |}] |};
           outcome := Returned p |}
    end.

Definition pending (s : Loop) (p : nat) : bool :=
  bool_decide (p ∈ map promise_id (in_flight s)).

(** One turn of the event loop: a call in flight, chosen by the
    environment, runs the rest of its body and its promise settles. *)
Definition settle_next : M (nat * Result bool) :=
  λ s,
    let i := next_ready env (choices s) `mod` length (in_flight s) in
    match in_flight s !! i with
    | None => throw {| message := "no call in flight" |} s
    | Some c =>
        {| events := events (completion c)
                     ++ [Settled (promise_id c) (outcome (completion c))];
           after := {| created := created s; choices := S (choices s);
                       in_flight := delete i (in_flight s) |};
           outcome := Returned (promise_id c, outcome (completion c)) |}
    end.

(** The caller is suspended until none of [promises] is in flight; the
    event loop turns meanwhile.  A rejection of one of them is thrown to
    the caller at once. *)
Fixpoint until_settled (turns : nat) (promises : list nat) : M unit :=
  match turns with
  | 0 => mret tt
  | S turns' =>
      λ s,
        if forallb (λ p, negb (pending s p)) promises
        then task_ret tt s
        else (settled ← settle_next;
              match settled with
              | (p, Thrown e) =>
                  if bool_decide (p ∈ promises) then throw e
                  else until_settled turns' promises
              | (_, Returned _) => until_settled turns' promises
              end) s
  end.

(** [await Promise.all(promises)].  Each turn takes one call out of
    flight, so as many turns as there are calls in flight suffice. *)
Definition Promise_all (promises : list nat) : M unit :=
  λ s, until_settled (length (in_flight s)) promises s.

(** [await f(...)] for an [async] function [f]. *)
Definition await (call : AsyncCall) : M unit :=
  p ← spawn call; Promise_all [p].

(** [xs.map(f)] for an [f] with effects. *)
Fixpoint map_M {A B} (f : A → M B) (xs : list A) : M (list B) :=
  match xs with
  | [] => mret []
  | x :: rest => y ← f x; ys ← map_M f rest; mret (y :: ys)
  end.

(** ** Endpoint client (lines 20-70) *)

Definition json_headers : list (string * string) :=
  [("Content-Type", "application/json")].

(** The [Response] that [await fetch(...)] yields, or the error it throws. *)
Definition received {S} (o : FetchOutcome) : Task S (Z * string * Result string) :=
  match o with
  | TransportError e => throw e
  | Response status statusText text => mret (status, statusText, text)
  end.

(** [await response.text()]. *)
Definition response_text {S} (text : Result string) : Task S string :=
  match text with
  | Returned body => mret body
  | Thrown e => throw e
  end.

Definition http_error (status : Z) (statusText : string) : Error :=
  {| message := "HTTP " +:+ pretty status +:+ ": " +:+ statusText |}.

Definition terminateEndpoint (url : string) : AsyncCall :=
  {| before :=
       logVerbose ("Sending terminate request to " +:+ url) [] ;;
       mret {| req_url := "http://" +:+ url +:+ "/api/bentoml/serve/terminate";
               req_method := "POST";
               req_headers := json_headers;
               req_body := None |};
     on_outcome := λ o,
       '(status, statusText, text) ← received o;
       if negb (response_ok status) then throw (http_error status statusText)
       else
         body ← response_text text;
         logVerbose ("Terminate successful for " +:+ url) [body] ;;
         mret true;
     on_error := λ error,
       log ("ERROR: Failed to terminate endpoint " +:+ url +:+ ":") [message error] ;;
       mret false |}.

(** [port.toString()] of an integer port: its decimal numeral. *)
Definition toString (port : Z) : string := pretty port.

Definition executeWorkflow (url : string) (port : Z) (workflowData : json) : AsyncCall :=
  {| before :=
       logVerbose ("Executing workflow on " +:+ url +:+ " for port " +:+ toString port) [] ;;
       let payload :=
         JObj [("parallel", JBool true);
               ("host", JStr "0.0.0.0");
               ("port", JStr (toString port));
               ("workflow_api", workflowData)] in
       mret {| req_url := "http://" +:+ url +:+ "/api/bentoml/serve";
               req_method := "POST";
               req_headers := json_headers;
               req_body := Some payload |};
     on_outcome := λ o,
       '(status, statusText, text) ← received o;
       if negb (response_ok status) then throw (http_error status statusText)
       else
         body ← response_text text;
         logVerbose ("Workflow execution successful for " +:+ url +:+ ":" +:+ toString port)
                    [body] ;;
         mret true;
     on_error := λ error,
       log ("ERROR: Failed to execute workflow on " +:+ url +:+ ":" +:+ toString port +:+ ":")
           [message error] ;;
       mret false |}.

(** ** Workflow loader (lines 73-82) *)

Definition fs_readFileSync (filePath : string) : M string :=
  emit (ReadFile filePath) ;;
  match readFileSync env filePath with
  | Returned content => mret content
  | Thrown e => throw e
  end.

Definition parse (content : string) : M json :=
  match JSON_parse env content with
  | Returned value => mret value
  | Thrown e => throw e
  end.

Definition loadWorkflowFile (filename : string) : M json :=
  try_catch
    (let filePath := path_resolve env filename in
     content ← fs_readFileSync filePath;
     parse content)
    (λ error,
       log ("ERROR: Failed to load workflow file " +:+ filename +:+ ":") [message error] ;;
       mret JNull).

(** ** Orchestration (lines 85-142) *)

Definition terminateAllEndpoints : M unit :=
  let endpoints := endpoints config in
  log "Terminating all endpoints..." [] ;;
  terminatePromises ← map_M (λ endpoint, spawn (terminateEndpoint (url endpoint))) endpoints;
  Promise_all terminatePromises ;;
  log "All terminations complete" [].

Definition executeAllWorkflows : M unit :=
  let endpoints := endpoints config in
  log "Executing workflows..." [] ;;
  let workflowPromises := [] in
  for_each endpoints (λ endpoint,
    for_each (workflows_or_empty endpoint) (λ workflowConfig,
      workflowData ← loadWorkflowFile (workflow workflowConfig);
      if truthy workflowData
      then await (executeWorkflow (url endpoint) (port workflowConfig) workflowData)
      else mret tt)) ;;
  Promise_all workflowPromises ;;
  log "All workflows complete" [].

(** The loop of lines 131-138: each workflow is loaded and, when the
    loaded value is truthy, its call is started and its promise pushed. *)
Fixpoint start_workflows (endpoint : EndpointConfig) (wfs : list WorkflowConfig)
    (workflowPromises : list nat) : M (list nat) :=
  match wfs with
  | [] => mret workflowPromises
  | workflowConfig :: rest =>
      workflowData ← loadWorkflowFile (workflow workflowConfig);
      if truthy workflowData
      then
        p ← spawn (executeWorkflow (url endpoint) (port workflowConfig) workflowData);
        start_workflows endpoint rest (workflowPromises ++ [p])
      else start_workflows endpoint rest workflowPromises
  end.

Definition executeWorkflowsForEndpoint (endpointUrl : string) : M unit :=
  let endpoints := endpoints config in
  match List.find (λ ep, String.eqb (url ep) endpointUrl) endpoints with
  | None =>
      log ("ERROR: Endpoint " +:+ endpointUrl +:+ " not found in configuration") []
  | Some endpoint =>
      log ("Terminating endpoint " +:+ endpointUrl +:+ "...") [] ;;
      await (terminateEndpoint (url endpoint)) ;;
      log ("Executing workflows for endpoint " +:+ endpointUrl +:+ "...") [] ;;
      workflowPromises ← start_workflows endpoint (workflows_or_empty endpoint) [];
      Promise_all workflowPromises ;;
      log ("Workflows complete for endpoint " +:+ endpointUrl) []
  end.

(** ** The change handler (lines 178-189) *)

(** The handler registered on the watcher, over the index it closes over;
    [reload] is the function it calls for each affected endpoint. *)
Definition onChange_with (reload : string → M unit)
    (fileToEndpoints : gmap string (list string)) (filename : string) : M unit :=
  log ("Workflow file " +:+ filename +:+ " changed, reloading affected endpoints") [] ;;
  let affectedEndpoints := default [] (fileToEndpoints !! filename) in
  for_each affectedEndpoints (λ endpointUrl,
    try_catch
      (reload endpointUrl)
      (λ error, log ("ERROR: Failed to reload endpoint " +:+ endpointUrl +:+ ":")
                    [message error])).

Definition onChange : gmap string (list string) → string → M unit :=
  onChange_with executeWorkflowsForEndpoint.

(** ** The bulk pass (lines 195-202) *)

Definition runOrchestration : M unit :=
  try_catch
    (terminateAllEndpoints ;; executeAllWorkflows)
    (λ error, log "ERROR: Orchestration failed:" [message error]).

End Orchestrator.

(** ** Watch-handle lifecycle (lines 145-192 and 205-237) *)

Module Lifecycle.

(** What [chokidar.watch] returns: the watcher, the paths it watches and
    the index its change handler closes over. *)
Record Watcher := {
  watcher_id : nat;
  watched : list string;
  index : gmap string (list string)
}.

(** The calls on the watch service. *)
Inductive WatchEvent : Type :=
  | Opened (id : nat) (paths : list string)
  | Closed (id : nat).

(** The process as the lifecycle sees it: the configuration that
    [config.get] returns, [global.workflowWatcher], the number of watchers
    created so far, the number of bulk passes whose promise has not yet
    settled, and the calls made on the watch service. *)
Record Sys := {
  configuration : Config;
  workflowWatcher : option Watcher;
  watchers : nat;
  passes : nat;
  trace : list WatchEvent
}.

(** [setupFileWatchers()]: no watcher when no workflow file is configured,
    else a new watcher on the distinct paths, with the handler over the
    index just built. *)
Definition setupFileWatchers (s : Sys) : option Watcher * Sys :=
  let eps := endpoints (configuration s) in
  let workflowFiles := Index.workflowFiles eps in
  let fileToEndpoints := Index.fileToEndpoints eps in
  if Nat.eqb (length workflowFiles) 0 then (None, s)
  else
    let watcher := {| watcher_id := watchers s;
                      watched := workflowFiles;
                      index := fileToEndpoints |} in
    (Some watcher,
     {| configuration := configuration s;
        workflowWatcher := workflowWatcher s;
        watchers := S (watchers s);
        passes := passes s;
        trace := trace s ++ [Opened (watchers s) workflowFiles] |}).

(** [onConfigChanged()], up to the call of [runOrchestration()]: the
    watcher in [global.workflowWatcher], if any, is closed, and a bulk pass
    starts.  The variable keeps the closed watcher. *)
Definition onConfigChanged (s : Sys) : Sys :=
  let closed :=
    match workflowWatcher s with
    | Some watcher => trace s ++ [Closed (watcher_id watcher)]
    | None => trace s
    end in
  {| configuration := configuration s;
     workflowWatcher := workflowWatcher s;
     watchers := watchers s;
     passes := S (passes s);
     trace := closed |}.

(** What follows a bulk pass, in [initialize] after
    [await runOrchestration()] and in [onConfigChanged] in the [then]
    callback alike: [global.workflowWatcher = setupFileWatchers()]. *)
Definition pass_settled (s : Sys) : Sys :=
  match passes s with
  | 0 => s
  | S running =>
      let '(watcher, s') := setupFileWatchers s in
      {| configuration := configuration s';
         workflowWatcher := watcher;
         watchers := watchers s';
         passes := running;
         trace := trace s' |}
  end.

(** [initialize()], up to its [await]: the listener is registered and the
    first bulk pass is running. *)
Definition initialize (c : Config) : Sys :=
  {| configuration := c;
     workflowWatcher := None;
     watchers := 0;
     passes := 1;
     trace := [] |}.

(** What happens to the process: the provider replaces the configuration
    and notifies the listener, or the promise of a bulk pass settles. *)
Inductive Input : Type :=
  | ConfigChanged (next : Config)
  | PassSettled.

Definition step (s : Sys) (i : Input) : Sys :=
  match i with
  | ConfigChanged next =>
      onConfigChanged {| configuration := next;
                         workflowWatcher := workflowWatcher s;
                         watchers := watchers s;
                         passes := passes s;
                         trace := trace s |}
  | PassSettled => pass_settled s
  end.

Definition run (s : Sys) (inputs : list Input) : Sys := foldl step s inputs.

(** The watchers that are open after the calls of a trace. *)
Definition active (t : list WatchEvent) : list nat :=
  foldl (λ open e,
           match e with
           | Opened id _ => open ++ [id]
           | Closed id => filter (λ w, w ≠ id) open
           end) [] t.

(** How often [close()] was called on a watcher. *)
Definition closes (id : nat) (t : list WatchEvent) : nat :=
  length (List.filter (λ e, match e with Closed w => Nat.eqb w id | Opened _ _ => false end) t).

End Lifecycle.

(** ** What the traces are compared with *)

Section Expected.

Context (env : Env).

(** The value [loadWorkflowFile] hands to its caller. *)
Definition loaded (filename : string) : json :=
  match readFileSync env (path_resolve env filename) with
  | Returned content =>
      match JSON_parse env content with
      | Returned value => value
      | Thrown _ => JNull
      end
  | Thrown _ => JNull
  end.

(** The file cannot be read, or its content is not JSON. *)
Definition load_fails (filename : string) : Prop :=
  match readFileSync env (path_resolve env filename) with
  | Returned content =>
      match JSON_parse env content with
      | Returned _ => False
      | Thrown _ => True
      end
  | Thrown _ => True
  end.

(** The file holds the JSON text of [value]. *)
Definition holds_json (filename : string) (value : json) : Prop :=
  ∃ content,
    readFileSync env (path_resolve env filename) = Returned content
    ∧ JSON_parse env content = Returned value.

(** The response has a 2xx status and its body was read. *)
Definition succeeded (o : FetchOutcome) : bool :=
  match o with
  | TransportError _ => false
  | Response status _ (Returned _) => response_ok status
  | Response _ _ (Thrown _) => false
  end.

(** The two requests on the wire (section 6 of the specification). *)
Definition terminate_request (url : string) : Request :=
  {| req_url := "http://" +:+ url +:+ "/api/bentoml/serve/terminate";
     req_method := "POST";
     req_headers := [("Content-Type", "application/json")];
     req_body := None |}.

Definition execute_request (url : string) (port : Z) (document : json) : Request :=
  {| req_url := "http://" +:+ url +:+ "/api/bentoml/serve";
     req_method := "POST";
     req_headers := [("Content-Type", "application/json")];
     req_body := Some (JObj [("parallel", JBool true);
                             ("host", JStr "0.0.0.0");
                             ("port", JStr (pretty port));
                             ("workflow_api", document)]) |}.

(** The promise of the call settles with the success of its exchange. *)
Definition settles (p : nat) (r : Request) : Event :=
  Settled p (Returned (succeeded (fetch env p r))).

(** The execute request of a workflow entry, if its loaded value passes
    the caller's test. *)
Definition execute_call (endpoint : EndpointConfig) (workflowConfig : WorkflowConfig)
    : list Request :=
  let document := loaded (workflow workflowConfig) in
  if truthy document
  then [execute_request (url endpoint) (port workflowConfig) document]
  else [].

Definition execute_calls (endpoint : EndpointConfig) (wfs : list WorkflowConfig)
    : list Request :=
  flat_map (execute_call endpoint) wfs.

(** Promises numbered from [n] on. *)
Fixpoint numbered {A} (n : nat) (xs : list A) : list (nat * A) :=
  match xs with
  | [] => []
  | x :: rest => (n, x) :: numbered (S n) rest
  end.

(** Reading the files of an endpoint in order and sending the execute
    request of each as soon as it is loaded, the promises numbered from
    [n] on. *)
Fixpoint load_and_send (endpoint : EndpointConfig) (n : nat) (wfs : list WorkflowConfig)
    : list Event :=
  match wfs with
  | [] => []
  | workflowConfig :: rest =>
      ReadFile (path_resolve env (workflow workflowConfig))
      :: match execute_call endpoint workflowConfig with
         | [] => load_and_send endpoint n rest
         | r :: _ => Fetch n r :: load_and_send endpoint (S n) rest
         end
  end.

(** The same, each call awaited before the next file is read. *)
Fixpoint load_and_serve (endpoint : EndpointConfig) (n : nat) (wfs : list WorkflowConfig)
    : list Event :=
  match wfs with
  | [] => []
  | workflowConfig :: rest =>
      ReadFile (path_resolve env (workflow workflowConfig))
      :: match execute_call endpoint workflowConfig with
         | [] => load_and_serve endpoint n rest
         | r :: _ => Fetch n r :: settles n r :: load_and_serve endpoint (S n) rest
         end
  end.

End Expected.

(** The configuration of the specification's example: endpointA serves
    fileX, endpointB serves fileX and fileY. *)
Definition example_endpoints : list EndpointConfig :=
  [ {| url := "endpointA";
       workflows := Some [ {| workflow := "fileX"; port := 3000 |} ] |};
    {| url := "endpointB";
       workflows := Some [ {| workflow := "fileX"; port := 3001 |};
                           {| workflow := "fileY"; port := 3002 |} ] |} ].

(** ** Runs that return *)

(** From [s] the computation emits, log lines apart, the events [q],
    leaves the state [s'] and returns [a]. *)
Definition yields {S A} (m : Task S A) (s : S) (q : list Event) (s' : S) (a : A) : Prop :=
  quiet (events (m s)) = q ∧ after (m s) = s' ∧ outcome (m s) = Returned a.

(** A call in flight whose body, once resumed, only prints and returns. *)
Definition tame (c : InFlight) : Prop :=
  quiet (events (completion c)) = [] ∧ ∃ b, outcome (completion c) = Returned b.

(** The event by which the promise of a call in flight settles. *)
Definition settlement (c : InFlight) : Event :=
  Settled (promise_id c) (outcome (completion c)).

(** ** The contract of the endpoint client, in the specification's words *)

Definition fetch_rejects (o : FetchOutcome) : Prop :=
  ∃ e, o = TransportError e.

Definition status_2xx (o : FetchOutcome) : Prop :=
  ∃ status statusText text,
    o = Response status statusText text ∧ (200 ≤ status ≤ 299)%Z.

Definition status_not_2xx (o : FetchOutcome) : Prop :=
  ∃ status statusText text,
    o = Response status statusText text ∧ ¬ (200 ≤ status ≤ 299)%Z.

(** Reading the body of the response throws. *)
Definition body_rejects (o : FetchOutcome) : Prop :=
  ∃ status statusText e, o = Response status statusText (Thrown e).

(** The transport raises an error where the function awaits it: at
    [fetch], or at [response.text()], which is reached on a 2xx status. *)
Definition transport_raises (o : FetchOutcome) : Prop :=
  fetch_rejects o ∨ (status_2xx o ∧ body_rejects o).

(** The contract as the specification states it, for a call that ended
    with the value [b] on the outcome [o]. *)
Definition stated_contract (o : FetchOutcome) (b : bool) : Prop :=
  (b = false ↔ transport_raises o ∨ status_not_2xx o)
  ∧ (b = true ↔ status_2xx o).

(** A call that sends [req] after printing at most log lines and whose
    promise settles, after at most log lines, with the success of the
    exchange. *)
Definition client_call (call : AsyncCall) (req : Request) : Prop :=
  yields (before call) tt [] tt req
  ∧ ∀ o, quiet (events (finish call o)) = []
         ∧ outcome (finish call o) = Returned (succeeded o).

(** The call a client function puts in flight. *)
Definition flying (env : Env) (call : AsyncCall) (p : nat) (req : Request) : InFlight :=
  {| promise_id := p; completion := finish call (fetch env p req) |}.

(** The requests of a batch of promises being sent, and their promises
    settling. *)
Definition sent (batch : list (nat * Request)) : list Event :=
  map (λ '(p, r), Fetch p r) batch.

Definition answered (env : Env) (batch : list (nat * Request)) : list Event :=
  map (λ '(p, r), settles env p r) batch.

(** The call in flight [c] is the promise [p] of a client call that
    sent [r]. *)
Definition flies (env : Env) (c : InFlight) (pr : nat * Request) : Prop :=
  promise_id c = pr.1 ∧ tame c ∧ settlement c = settles env pr.1 pr.2.

(** The requests and the events of the two halves of the bulk pass. *)
Definition terminate_requests (eps : list EndpointConfig) : list Request :=
  map (λ endpoint, terminate_request (url endpoint)) eps.

Definition all_execute_calls (env : Env) (eps : list EndpointConfig) : list Request :=
  flat_map (λ endpoint, execute_calls env endpoint (workflows_or_empty endpoint)) eps.

Fixpoint serve_all (env : Env) (n : nat) (eps : list EndpointConfig) : list Event :=
  match eps with
  | [] => []
  | endpoint :: rest =>
      let wfs := workflows_or_empty endpoint in
      load_and_serve env endpoint n wfs
      ++ serve_all env (n + length (execute_calls env endpoint wfs)) rest
  end.

(** ** The shape of a reload *)

(** [endpoints.find(ep => ep.url === endpointUrl)]. *)
Definition find_endpoint (config : Config) (endpointUrl : string) : option EndpointConfig :=
  List.find (λ ep, String.eqb (url ep) endpointUrl) (endpoints config).

(** One terminate-then-execute cycle of an endpoint, the promises numbered
    from [n] on: the terminate request is sent and its promise settles;
    then every workflow file of the endpoint is read in order, the execute
    request of each being sent as soon as it is loaded; only then do the
    promises of the execute calls settle, in some order. *)
Definition reload_cycle (env : Env) (endpoint : EndpointConfig) (n : nat)
    (segment : list Event) : Prop :=
  let wfs := workflows_or_empty endpoint in
  ∃ order,
    order ≡ₚ numbered (S n) (execute_calls env endpoint wfs)
    ∧ segment
      = Fetch n (terminate_request (url endpoint))
        :: settles env n (terminate_request (url endpoint))
        :: load_and_send env endpoint (S n) wfs ++ answered env order.

(** One cycle after the other, for the endpoints configured under [urls],
    in that order. *)
Fixpoint reload_cycles (env : Env) (config : Config) (urls : list string) (n : nat)
    (t : list Event) : Prop :=
  match urls with
  | [] => t = []
  | endpointUrl :: rest =>
      ∃ endpoint segment t',
        find_endpoint config endpointUrl = Some endpoint
        ∧ url endpoint = endpointUrl
        ∧ reload_cycle env endpoint n segment
        ∧ t = segment ++ t'
        ∧ reload_cycles env config rest
            (S n + length (execute_calls env endpoint (workflows_or_empty endpoint))) t'
  end.

(** What the handler does with the affected endpoints when [reload] may
    throw: each is attempted from the state the previous one left, and a
    throw costs one log line. *)
Fixpoint attempts (reload : string → M unit) (urls : list string) (s : Loop)
    : list Event * Loop :=
  match urls with
  | [] => ([], s)
  | endpointUrl :: rest =>
      let r := reload endpointUrl s in
      let caught :=
        match outcome r with
        | Returned _ => []
        | Thrown error =>
            events (log ("ERROR: Failed to reload endpoint " +:+ endpointUrl +:+ ":")
                        [message error] (after r))
        end in
      let '(t, s') := attempts reload rest (after r) in
      (events r ++ caught ++ t, s')
  end.

(** ** Concrete worlds *)

(** A working directory with two files: fileX holds an empty object,
    fileY holds the number zero; every other path is missing.  The parser
    agrees with [JSON.parse] on these two texts.  Every exchange on a
    promise with an even number succeeds, every other one is refused, and
    the event loop always resumes the second call in flight, if any. *)
Definition example_env : Env :=
  {| path_resolve := λ filename, "/srv/" +:+ filename;
     readFileSync := λ filePath,
       if String.eqb filePath "/srv/fileX" then Returned "{}"
       else if String.eqb filePath "/srv/fileY" then Returned "0"
       else Thrown {| message := "ENOENT: no such file or directory" |};
     JSON_parse := λ content,
       if String.eqb content "{}" then Returned (JObj [])
       else if String.eqb content "0" then Returned (JNum (QArith_base.Qmake 0 1))
       else Thrown {| message := "Unexpected token" |};
     fetch := λ p _,
       if Nat.even p then Response 200 "OK" (Returned "done")
       else TransportError {| message := "connect ECONNREFUSED" |};
     next_ready := λ _, 1 |}.

Definition example_config : Config :=
  {| verbose := false; endpoints := example_endpoints |}.

(** The same endpoints with workflow files that do not exist. *)
Definition missing_files_config : Config :=
  {| verbose := false;
     endpoints :=
       [ {| url := "endpointA";
            workflows := Some [ {| workflow := "gone1"; port := 3000 |} ] |};
         {| url := "endpointB";
            workflows := Some [ {| workflow := "gone2"; port := 3001 |} ] |};
         {| url := "endpointC"; workflows := None |} ] |}.

(** The world [env] with another network and another scheduler, the files
    unchanged. *)
Definition with_network (env : Env) (fetch' : nat → Request → FetchOutcome)
    (next_ready' : nat → nat) : Env :=
  {| path_resolve := path_resolve env;
     readFileSync := readFileSync env;
     JSON_parse := JSON_parse env;
     fetch := fetch';
     next_ready := next_ready' |}.

(** The world [env] in which the file of [filename] cannot be read. *)
Definition unreadable (env : Env) (filename : string) : Env :=
  {| path_resolve := path_resolve env;
     readFileSync := λ filePath,
       if String.eqb filePath (path_resolve env filename)
       then Thrown {| message := "ENOENT: no such file or directory" |}
       else readFileSync env filePath;
     JSON_parse := JSON_parse env;
     fetch := fetch env;
     next_ready := next_ready env |}.

(** The configuration in which the endpoint at one position has the
    workflows [wfs]. *)
Definition with_workflows (before_it : list EndpointConfig) (endpoint : EndpointConfig)
    (after_it : list EndpointConfig) (wfs : list WorkflowConfig) (v : bool) : Config :=
  {| verbose := v;
     endpoints := before_it ++ {| url := url endpoint; workflows := Some wfs |} :: after_it |}.

(** The paths of all configured workflows, in configuration order. *)
Definition all_paths (env : Env) (eps : list EndpointConfig) : list string :=
  flat_map (λ endpoint,
              map (λ workflowConfig, path_resolve env (workflow workflowConfig))
                  (workflows_or_empty endpoint)) eps.

(** ** The change handling as the specification words it *)

(** On a change of [filename], an execute request is sent for every
    workflow of every affected endpoint whose file was loaded
    successfully. *)
Definition executes_every_loaded_document (env : Env) (config : Config)
    (filename : string) : Prop :=
  let index := Index.fileToEndpoints (endpoints config) in
  ∀ urls endpointUrl endpoint workflowConfig value,
    index !! filename = Some urls →
    endpointUrl ∈ urls →
    find_endpoint config endpointUrl = Some endpoint →
    workflowConfig ∈ workflows_or_empty endpoint →
    holds_json env (workflow workflowConfig) value →
    execute_request (url endpoint) (port workflowConfig) value
    ∈ calls (events (onChange env config index filename (idle 0 0))).

(** ** The lifecycle between two cycles *)

(** The watcher in [global.workflowWatcher], as a list. *)
Definition held (s : Lifecycle.Sys) : list nat :=
  match Lifecycle.workflowWatcher s with
  | Some watcher => [Lifecycle.watcher_id watcher]
  | None => []
  end.

(** No bulk pass is running and the only open watcher is the one the
    global variable holds. *)
Definition at_rest (s : Lifecycle.Sys) : Prop :=
  Lifecycle.passes s = 0 ∧ Lifecycle.active (Lifecycle.trace s) = held s.

(** Notifications that do not overlap: each arrives at rest and its bulk
    pass settles before the next one arrives. *)
Definition one_at_a_time (nexts : list Config) : list Lifecycle.Input :=
  flat_map (λ next, [Lifecycle.ConfigChanged next; Lifecycle.PassSettled]) nexts.

(** ** Further definitions *)

(** The set of files and the keys of the map go together through the
    loops. *)
Definition files_are_keys (acc : Index.Collected) : Prop :=
  NoDup acc.1 ∧ ∀ f, f ∈ acc.1 ↔ is_Some (acc.2 !! f).

(** The requests one reload of [endpointUrl] sends: none when the URL is
    not configured. *)
Definition reload_requests (env : Env) (config : Config) (endpointUrl : string)
    : list Request :=
  match find_endpoint config endpointUrl with
  | Some endpoint =>
      terminate_request (url endpoint)
      :: execute_calls env endpoint (workflows_or_empty endpoint)
  | None => []
  end.

(** Every request of the trace is followed at once by the settlement of
    its promise: no two calls are in flight together. *)
Fixpoint each_awaited (t : list Event) : Prop :=
  match t with
  | [] => True
  | Fetch p _ :: rest =>
      match rest with
      | Settled p' _ :: rest' => p = p' ∧ each_awaited rest'
      | _ => False
      end
  | Settled _ _ :: _ => False
  | _ :: rest => each_awaited rest
  end.

(** The promises whose requests were sent, and the promises that
    settled, in the order of the trace. *)
Definition fetched_promises (t : list Event) : list nat :=
  flat_map (λ e, match e with Fetch p _ => [p] | _ => [] end) t.

Definition settled_promises (t : list Event) : list nat :=
  flat_map (λ e, match e with Settled p _ => [p] | _ => [] end) t.

(** The number of calls of [console.log] in a trace. *)
Definition log_calls (t : list Event) : nat :=
  length (List.filter is_log t).

(** The loader claim as the specification words it, for the bulk pass on
    a configuration in which [failing] fails to load: every sibling
    workflow of the same endpoint whose file is loaded has its execute
    request sent. *)
Definition siblings_still_executed (env : Env) (endpoint : EndpointConfig)
    (wfs1 : list WorkflowConfig) (failing : WorkflowConfig) (wfs2 : list WorkflowConfig)
    : Prop :=
  load_fails env (workflow failing) →
  ∀ sibling value,
    sibling ∈ wfs1 ++ wfs2 →
    holds_json env (workflow sibling) value →
    execute_request (url endpoint) (port sibling) value
    ∈ calls (events (executeAllWorkflows env
                       (with_workflows [] endpoint [] (wfs1 ++ failing :: wfs2) false)
                       (idle 0 0))).

(** The watchers opened by the calls of a trace. *)
Definition opened (t : list Lifecycle.WatchEvent) : list nat :=
  flat_map (λ e, match e with Lifecycle.Opened id _ => [id] | Lifecycle.Closed _ => [] end) t.

(** Between two cycles that did not overlap: the open watcher is the one
    held, the watchers opened so far are numbered from zero, every one of
    them but the one held was closed once, and the one held was not. *)
Definition orderly (s : Lifecycle.Sys) : Prop :=
  at_rest s
  ∧ opened (Lifecycle.trace s) = seq 0 (Lifecycle.watchers s)
  ∧ ∀ id, Lifecycle.closes id (Lifecycle.trace s)
          = if bool_decide (id ∈ opened (Lifecycle.trace s) ∧ id ∉ held s) then 1 else 0.

(** All configured workflow entries, in configuration order. *)
Definition all_workflows (eps : list EndpointConfig) : list WorkflowConfig :=
  flat_map workflows_or_empty eps.

(** * Properties *)

(** ** The index *)

Lemma extend_app entry l1 l2 :
  Index.extend (Index.extend entry l1) l2 = Index.extend entry (l1 ++ l2).
Proof.
  destruct l1 as [|a l1]; [reflexivity|].
  destruct l2 as [|b l2]; simpl.
  - by rewrite app_nil_r.
  - by rewrite <- app_assoc.
Qed.

Lemma record_endpoint_same filename endpointUrl (m : gmap string (list string)) :
  Index.record_endpoint filename endpointUrl m !! filename
  = Index.extend (m !! filename) [endpointUrl].
Proof.
  unfold Index.record_endpoint. rewrite lookup_insert_eq.
  case_decide as Hin; simpl.
  - by destruct Hin as [l ->].
  - rewrite lookup_insert_eq. apply eq_None_not_Some in Hin. by rewrite Hin.
Qed.

Lemma record_endpoint_other filename other endpointUrl (m : gmap string (list string)) :
  filename ≠ other →
  Index.record_endpoint filename endpointUrl m !! other = m !! other.
Proof.
  intros Hne. unfold Index.record_endpoint. rewrite lookup_insert_ne by done.
  case_decide; [done|]. by rewrite lookup_insert_ne.
Qed.

Lemma visit_workflows_lookup endpoint filename wfs (acc : Index.Collected) :
  (foldl (Index.visit_workflow endpoint) acc wfs).2 !! filename
  = Index.extend (acc.2 !! filename)
      (flat_map (λ workflowConfig,
                   if decide (workflow workflowConfig = filename)
                   then [url endpoint] else []) wfs).
Proof.
  revert acc. induction wfs as [|wf wfs IH]; intros acc; [reflexivity|].
  cbn [foldl flat_map]. rewrite IH, <- extend_app. f_equal.
  unfold Index.visit_workflow; cbn [snd]. case_decide as Heq.
  - rewrite Heq. apply record_endpoint_same.
  - by rewrite record_endpoint_other.
Qed.

Lemma visit_endpoints_lookup filename eps (acc : Index.Collected) :
  (foldl Index.visit_endpoint acc eps).2 !! filename
  = Index.extend (acc.2 !! filename) (Index.referencing eps filename).
Proof.
  revert acc. induction eps as [|ep eps IH]; intros acc; [reflexivity|].
  cbn [foldl]. rewrite IH. unfold Index.referencing; cbn [flat_map].
  rewrite <- extend_app. f_equal. apply visit_workflows_lookup.
Qed.

Lemma fileToEndpoints_lookup eps filename :
  Index.fileToEndpoints eps !! filename
  = Index.extend None (Index.referencing eps filename).
Proof.
  unfold Index.fileToEndpoints, Index.collect.
  rewrite visit_endpoints_lookup. cbn [snd]. by rewrite lookup_empty.
Qed.

(** C1. Index construction: for every configuration and every path, the map
    built by [setupFileWatchers] has an entry for the path exactly when some
    endpoint references it, and the entry is the list of the URLs of the
    referencing endpoints, one per reference, in configuration order and
    without deduplication; on the example configuration it is
    fileX -> [endpointA, endpointB], fileY -> [endpointB], and an endpoint
    that lists fileX twice is recorded twice. *)
Theorem index_construction :
  (∀ (eps : list EndpointConfig) (filename : string),
      Index.fileToEndpoints eps !! filename
      = match Index.referencing eps filename with
        | [] => None
        | urls => Some urls
        end)
  ∧ Index.fileToEndpoints example_endpoints
    = {[ "fileX" := ["endpointA"; "endpointB"]; "fileY" := ["endpointB"] ]}
  ∧ Index.fileToEndpoints
      [ {| url := "endpointA";
           workflows := Some [ {| workflow := "fileX"; port := 3000 |};
                               {| workflow := "fileX"; port := 3001 |} ] |} ]
    !! "fileX"
    = Some ["endpointA"; "endpointA"].
Proof.
  split; [|split].
  - intros eps filename. rewrite fileToEndpoints_lookup.
    by destruct (Index.referencing eps filename).
  - apply map_eq. intros k. rewrite fileToEndpoints_lookup.
    destruct (decide (k = "fileX")) as [->|HX]; [reflexivity|].
    destruct (decide (k = "fileY")) as [->|HY]; [reflexivity|].
    rewrite lookup_insert_ne, lookup_singleton_ne by done.
    unfold Index.referencing, Index.references_in, example_endpoints,
      workflows_or_empty; simpl.
    repeat case_decide; try congruence. reflexivity.
  - by rewrite fileToEndpoints_lookup.
Qed.

(** ** Computations *)

Lemma quiet_app t1 t2 : quiet (t1 ++ t2) = quiet t1 ++ quiet t2.
Proof. apply List.filter_app. Qed.

Lemma calls_app t1 t2 : calls (t1 ++ t2) = calls t1 ++ calls t2.
Proof. apply flat_map_app. Qed.

Lemma reads_app t1 t2 : reads (t1 ++ t2) = reads t1 ++ reads t2.
Proof. apply flat_map_app. Qed.

Lemma calls_quiet t : calls (quiet t) = calls t.
Proof.
  induction t as [|e t IH]; [reflexivity|].
  destruct e; simpl; by rewrite ?IH.
Qed.

Lemma reads_quiet t : reads (quiet t) = reads t.
Proof.
  induction t as [|e t IH]; [reflexivity|].
  destruct e; simpl; by rewrite ?IH.
Qed.

Lemma yields_ret {S A} (a : A) (s : S) : yields (mret a) s [] s a.
Proof. by repeat split. Qed.

Lemma yields_bind {S A B} (m : Task S A) (k : A → Task S B) s q1 s1 a q2 s2 b :
  yields m s q1 s1 a → yields (k a) s1 q2 s2 b → yields (m ≫= k) s (q1 ++ q2) s2 b.
Proof.
  intros (Hq1 & Hs1 & Ho1) (Hq2 & Hs2 & Ho2).
  unfold yields, mbind, task_mbind, task_bind. rewrite Ho1; cbn.
  rewrite quiet_app, Hq1, Hs1. by rewrite Hq2, Hs2, Ho2.
Qed.

Lemma yields_try {S A} (body : Task S A) handler s q s' a :
  yields body s q s' a → yields (try_catch body handler) s q s' a.
Proof.
  intros (Hq & Hs & Ho). unfold yields, try_catch. by rewrite Ho.
Qed.

Lemma yields_log {S} text args (s : S) : yields (log text args) s [] s tt.
Proof. by repeat split. Qed.

Lemma yields_logVerbose {S} config text args (s : S) :
  yields (logVerbose config text args) s [] s tt.
Proof. unfold logVerbose. destruct (verbose config); by repeat split. Qed.

Lemma yields_bind_as {S A B} (m : Task S A) (k : A → Task S B) s q1 s1 a q2 s2 b q :
  yields m s q1 s1 a → yields (k a) s1 q2 s2 b → q = q1 ++ q2 →
  yields (m ≫= k) s q s2 b.
Proof. intros ? ? ->. by eapply yields_bind. Qed.

(** A sequence whose first step prints nothing but log lines. *)
Lemma yields_after_log {S B} (m : Task S unit) (k : Task S B) s q s' b :
  yields m s [] s tt → yields k s q s' b → yields (m ;; k) s q s' b.
Proof. intros Hm Hk. by apply (yields_bind m (λ _, k) s [] s tt q s' b). Qed.

(** ** The endpoint client *)

(** Unfolds the sequencing of a computation whose steps are all known. *)
Ltac unfold_task :=
  repeat (progress
    (cbn;
     unfold yields, finish, try_catch, received, logVerbose, log, emit, throw,
       mbind, mret, task_mbind, task_mret, task_bind, task_ret)).

Lemma response_ok_spec status : response_ok status = true ↔ (200 ≤ status ≤ 299)%Z.
Proof. unfold response_ok. rewrite andb_true_iff, !Z.leb_le. tauto. Qed.

Lemma succeeded_true o : succeeded o = true ↔ status_2xx o ∧ ¬ body_rejects o.
Proof.
  destruct o as [e|status statusText [body|e]]; cbn.
  - split; [done|]. by intros [(? & ? & ? & ? & _) _].
  - rewrite response_ok_spec. split.
    + intros H. split; [by exists status, statusText, (Returned body)|].
      by intros (? & ? & ? & ?).
    + by intros [(? & ? & ? & [= -> _ _] & H) _].
  - split; [done|]. intros [_ H]. destruct H. by exists status, statusText, e.
Qed.

Lemma succeeded_false o :
  succeeded o = false
  ↔ fetch_rejects o ∨ status_not_2xx o ∨ (status_2xx o ∧ body_rejects o).
Proof.
  rewrite <- not_true_iff_false, succeeded_true.
  destruct o as [e|status statusText text].
  - split; [intros _; left; by exists e|].
    by intros _ [(? & ? & ? & ? & _) _].
  - destruct (decide (200 ≤ status ≤ 299)%Z) as [Hok|Hno].
    + assert (status_2xx (Response status statusText text)) as H2
        by (by exists status, statusText, text).
      split.
      * intros H. right; right. split; [done|].
        destruct text as [body|e]; [|by exists status, statusText, e].
        destruct H. split; [done|]. by intros (? & ? & ? & ?).
      * intros [[? ?]|[(? & ? & ? & [= -> _ _] & ?)|[_ Hb]]] [_ Hnb]; done.
    + split.
      * intros _. right; left. by exists status, statusText, text.
      * by intros _ [(? & ? & ? & [= -> _ _] & ?) _].
Qed.

Lemma terminate_client config url :
  client_call (terminateEndpoint config url) (terminate_request url).
Proof.
  split.
  - unfold_task. by destruct (verbose config).
  - intros [e|status statusText [body|e]]; unfold_task; [done| |].
    + destruct (response_ok status), (verbose config); done.
    + destruct (response_ok status); done.
Qed.

Lemma execute_client config url port document :
  client_call (executeWorkflow config url port document)
              (execute_request url port document).
Proof.
  split.
  - unfold_task. by destruct (verbose config).
  - intros [e|status statusText [body|e]]; unfold_task; [done| |].
    + destruct (response_ok status), (verbose config); done.
    + destruct (response_ok status); done.
Qed.

(** A response with status 200 whose body cannot be read: the status is
    2xx and [terminateEndpoint] returns false. *)
Lemma client_returns_false_on_2xx :
  let o := Response 200 "OK" (Thrown {| message := "terminated" |}) in
  outcome (finish (terminateEndpoint example_config "endpointA") o) = Returned false
  ∧ ¬ stated_contract o false.
Proof.
  split; [reflexivity|].
  intros [_ Htrue].
  assert (false = true) as Habsurd; [|done].
  apply Htrue. by exists 200%Z, "OK", (Thrown {| message := "terminated" |}).
Qed.

(** C4. Endpoint client error contract, as the code has it: for every
    URL, port, document and every course of the exchange,
    [terminateEndpoint] and [executeWorkflow] do not throw, neither before
    they suspend nor when they resume; the value of their promise is
    [false] exactly when [fetch] throws, or the response status is not 2xx,
    or the status is 2xx and reading the body throws; it is [true] exactly
    when the response status is 2xx and the body is read. *)
Theorem endpoint_client_contract :
  ∀ (config : Config) (url : string) (port : Z) (document : json) (o : FetchOutcome),
    Forall (λ call,
              (∃ req, outcome (before call tt) = Returned req)
              ∧ ∃ b, outcome (finish call o) = Returned b
                     ∧ (b = false
                        ↔ fetch_rejects o ∨ status_not_2xx o
                          ∨ (status_2xx o ∧ body_rejects o))
                     ∧ (b = true ↔ status_2xx o ∧ ¬ body_rejects o))
           [terminateEndpoint config url; executeWorkflow config url port document].
Proof.
  intros config url port document o.
  pose proof (terminate_client config url) as [(_ & _ & Hb1) H1].
  pose proof (execute_client config url port document) as [(_ & _ & Hb2) H2].
  repeat constructor; eauto.
  - exists (succeeded o). split; [apply H1|]. split.
    + apply succeeded_false.
    + apply succeeded_true.
  - exists (succeeded o). split; [apply H2|]. split.
    + apply succeeded_false.
    + apply succeeded_true.
Qed.

(** ** Promises and the event loop *)

Lemma flying_tame env call p req : client_call call req → tame (flying env call p req).
Proof. intros [_ H]. destruct (H (fetch env p req)) as [Hq Ho]. split; [done|]. eauto. Qed.

Lemma flying_settlement env call p req :
  client_call call req → settlement (flying env call p req) = settles env p req.
Proof.
  intros [_ H]. destruct (H (fetch env p req)) as [_ Ho].
  unfold settlement, settles; cbn. by rewrite Ho.
Qed.

Lemma spawn_yields env call req s :
  client_call call req →
  yields (spawn env call) s [Fetch (created s) req]
    {| created := S (created s); choices := choices s;
       in_flight := in_flight s ++ [flying env call (created s) req] |}
    (created s).
Proof.
  intros [(Hq & _ & Ho) _]. unfold yields, spawn. rewrite Ho; cbn.
  rewrite quiet_app, Hq. done.
Qed.

Lemma not_all_settled s c promises :
  c ∈ in_flight s → promise_id c ∈ promises →
  forallb (λ p, negb (pending s p)) promises = false.
Proof.
  intros Hc Hp. apply not_true_iff_false. rewrite forallb_forall.
  intros H. apply list_elem_of_In, H in Hp. unfold pending in Hp.
  rewrite negb_true_iff, bool_decide_eq_false in Hp.
  apply Hp, list_elem_of_fmap. eauto.
Qed.

Lemma settle_next_run env s i c :
  i = next_ready env (choices s) `mod` length (in_flight s) →
  in_flight s !! i = Some c →
  settle_next env s
  = {| events := events (completion c) ++ [settlement c];
       after := {| created := created s; choices := S (choices s);
                   in_flight := delete i (in_flight s) |};
       outcome := Returned (promise_id c, outcome (completion c)) |}.
Proof. intros -> Hc. unfold settle_next. by rewrite Hc. Qed.

(** Once no call is in flight, the wait is over. *)
Lemma until_settled_idle env turns promises n k :
  yields (until_settled env turns promises) (idle n k) [] (idle n k) tt.
Proof.
  destruct turns; [by repeat split|]. unfold yields. cbn [until_settled].
  assert (forallb (λ p, negb (pending (idle n k) p)) promises = true) as ->;
    [|by repeat split].
  apply forallb_forall. intros p _. unfold pending; cbn.
  rewrite negb_true_iff, bool_decide_eq_false. apply not_elem_of_nil.
Qed.

(** While only tame calls of [promises] are in flight, the wait ends when
    all of them have settled, in some order. *)
Lemma until_settled_all env promises turns :
  ∀ (cs : list InFlight) (n k : nat),
    (length cs ≤ turns)%nat →
    Forall tame cs →
    Forall (λ c, promise_id c ∈ promises) cs →
    ∃ order,
      order ≡ₚ cs
      ∧ yields (until_settled env turns promises)
          {| created := n; choices := k; in_flight := cs |}
          (map settlement order)
          (idle n (k + length cs)) tt.
Proof.
  induction turns as [|turns IH]; intros cs n k Hlen Htame Hin.
  - destruct cs; [|cbn in Hlen; lia]. exists []. split; [done|].
    cbn. rewrite Nat.add_0_r. by repeat split.
  - destruct cs as [|c0 cs0].
    { exists []. split; [done|]. cbn [length]. rewrite Nat.add_0_r.
      apply (until_settled_idle env (S turns)). }
    set (cs := c0 :: cs0) in *.
    set (s := {| created := n; choices := k; in_flight := cs |}).
    set (i := next_ready env k `mod` length cs).
    assert (i < length cs) as Hi by (apply Nat.mod_upper_bound; done).
    destruct (lookup_lt_is_Some_2 cs i Hi) as [c Hc].
    assert (tame c) as [Hcq [b Hcb]]
      by (eapply Forall_forall; [exact Htame|]; eapply list_elem_of_lookup_2; eauto).
    destruct (IH (delete i cs) n (S k)) as (order & Hperm & Hq & Hs & Ho).
    { rewrite length_delete by eauto. cbn [length] in *. lia. }
    { by apply Forall_delete. }
    { by apply Forall_delete. }
    exists (c :: order). split.
    { rewrite Hperm. symmetry. by apply delete_Permutation. }
    assert (until_settled env (S turns) promises s
            = (settled ← settle_next env;
               match settled with
               | (p, Thrown e) =>
                   if bool_decide (p ∈ promises) then throw e
                   else until_settled env turns promises
               | (_, Returned _) => until_settled env turns promises
               end) s) as Hstep.
    { cbn [until_settled].
      rewrite (not_all_settled s c0 promises); [done|by left|].
      by inversion Hin. }
    unfold yields. fold s. rewrite Hstep.
    unfold mbind, task_mbind, task_bind.
    rewrite (settle_next_run env s i c) by done.
    cbn [events after outcome]. rewrite Hcb. cbn [events after outcome].
    change (created s) with n. change (choices s) with k.
    change (in_flight s) with cs.
    rewrite !quiet_app, Hcq, Hq, Hs, Ho. cbn [quiet List.filter is_log negb app].
    rewrite length_delete by eauto. subst cs. cbn [length map].
    repeat split. unfold idle. f_equal. lia.
Qed.

Lemma flying_flies env call p req :
  client_call call req → flies env (flying env call p req) (p, req).
Proof.
  intros H. split; [done|]. split.
  - by apply flying_tame.
  - by apply flying_settlement.
Qed.

Lemma flies_settlements env cs batch :
  Forall2 (flies env) cs batch → map settlement cs = answered env batch.
Proof.
  induction 1 as [|c [p r] cs batch (_ & _ & Hc) _ IH]; [done|].
  cbn. by rewrite Hc, IH.
Qed.

(** [await Promise.all(promises)] on a batch of client calls, with nothing
    else in flight: every promise of the batch settles, in an order the
    environment chooses, and then the caller goes on. *)
Lemma Promise_all_batch env cs batch n k :
  Forall2 (flies env) cs batch →
  ∃ order,
    order ≡ₚ batch
    ∧ yields (Promise_all env (map fst batch))
        {| created := n; choices := k; in_flight := cs |}
        (answered env order)
        (idle n (k + length batch)) tt.
Proof.
  intros Hfly.
  destruct (until_settled_all env (map fst batch) (length cs) cs n k)
    as (order & Hperm & Hy); [done| | |].
  - eapply Forall2_Forall_l; [exact Hfly|].
    apply Forall_forall. by intros ? _ ? (_ & ? & _).
  - clear -Hfly. induction Hfly as [|c [p r] cs batch (Hp & _) _ IH];
      constructor; cbn in *.
    + rewrite Hp. by left.
    + eapply Forall_impl; [exact IH|]. intros ? ?. by right.
  - assert (map settlement order ≡ₚ answered env batch) as Hev.
    { rewrite <- (flies_settlements env cs batch) by done. by apply Permutation_map. }
    apply Permutation_map_inv in Hev as (order' & Heq & Hperm').
    exists order'. split; [done|].
    unfold Promise_all, yields in *. cbn [in_flight].
    destruct Hy as (Hq & Hs & Ho).
    unfold answered. rewrite <- Heq, <- (Forall2_length _ _ _ Hfly). done.
Qed.

Lemma await_yields env call req n k :
  client_call call req →
  yields (await env call) (idle n k) [Fetch n req; settles env n req]
    (idle (S n) (S k)) tt.
Proof.
  intros Hcall. unfold await.
  destruct (Promise_all_batch env [flying env call n req] [(n, req)] (S n) k)
    as (order & Hperm & Hy).
  { repeat constructor; by apply flying_flies || apply flying_tame
                           || apply flying_settlement. }
  apply Permutation_singleton_r in Hperm as ->.
  eapply (yields_bind _ _ _ [Fetch n req]); [by apply spawn_yields|].
  cbn in *. by rewrite Nat.add_1_r in Hy.
Qed.

(** ** The workflow loader *)

Lemma loadWorkflowFile_yields env filename s :
  yields (loadWorkflowFile env filename) s
    [ReadFile (path_resolve env filename)] s (loaded env filename).
Proof.
  unfold loadWorkflowFile, loaded, fs_readFileSync, parse. unfold_task.
  destruct (readFileSync env (path_resolve env filename)) as [content|e]; cbn; [|done].
  destruct (JSON_parse env content); done.
Qed.

(** ** The bulk pass *)

Lemma Promise_all_idle env promises n k :
  yields (Promise_all env promises) (idle n k) [] (idle n k) tt.
Proof. apply (until_settled_idle env 0). Qed.

Lemma execute_call_cases env endpoint workflowConfig :
  (truthy (loaded env (workflow workflowConfig)) = false
   ∧ execute_call env endpoint workflowConfig = [])
  ∨ (truthy (loaded env (workflow workflowConfig)) = true
     ∧ execute_call env endpoint workflowConfig
       = [execute_request (url endpoint) (port workflowConfig)
            (loaded env (workflow workflowConfig))]).
Proof.
  unfold execute_call. destruct (truthy (loaded env (workflow workflowConfig))); auto.
Qed.

Lemma serve_workflows env config endpoint wfs n k :
  yields
    (for_each wfs (λ workflowConfig,
       workflowData ← loadWorkflowFile env (workflow workflowConfig);
       if truthy workflowData
       then await env (executeWorkflow config (url endpoint) (port workflowConfig)
                         workflowData)
       else mret tt))
    (idle n k)
    (load_and_serve env endpoint n wfs)
    (idle (n + length (execute_calls env endpoint wfs))
          (k + length (execute_calls env endpoint wfs)))
    tt.
Proof.
  revert n k. induction wfs as [|wf wfs IH]; intros n k.
  - cbn. rewrite !Nat.add_0_r. apply yields_ret.
  - cbn [for_each load_and_serve execute_calls flat_map].
    destruct (execute_call_cases env endpoint wf) as [[Ht ->]|[Ht ->]].
    + eapply yields_bind_as;
        [eapply yields_bind_as;
           [apply loadWorkflowFile_yields|rewrite Ht; apply yields_ret|reflexivity]
        |apply IH|reflexivity].
    + cbn [app length]. rewrite <- !Nat.add_succ_comm.
      eapply yields_bind_as;
        [eapply yields_bind_as;
           [apply loadWorkflowFile_yields
           |rewrite Ht; apply await_yields, execute_client|reflexivity]
        |apply IH|reflexivity].
Qed.

Lemma serve_endpoints env config eps n k :
  yields
    (for_each eps (λ endpoint,
       for_each (workflows_or_empty endpoint) (λ workflowConfig,
         workflowData ← loadWorkflowFile env (workflow workflowConfig);
         if truthy workflowData
         then await env (executeWorkflow config (url endpoint) (port workflowConfig)
                           workflowData)
         else mret tt)))
    (idle n k)
    (serve_all env n eps)
    (idle (n + length (all_execute_calls env eps))
          (k + length (all_execute_calls env eps)))
    tt.
Proof.
  revert n k. induction eps as [|ep eps IH]; intros n k.
  - cbn. rewrite !Nat.add_0_r. apply yields_ret.
  - cbn [for_each serve_all all_execute_calls flat_map].
    rewrite length_app, !Nat.add_assoc.
    eapply yields_bind; [apply serve_workflows|apply IH].
Qed.

Lemma executeAllWorkflows_yields env config n k :
  yields (executeAllWorkflows env config) (idle n k)
    (serve_all env n (endpoints config))
    (idle (n + length (all_execute_calls env (endpoints config)))
          (k + length (all_execute_calls env (endpoints config))))
    tt.
Proof.
  unfold executeAllWorkflows.
  apply yields_after_log; [apply yields_log|].
  eapply yields_bind_as; [apply serve_endpoints| |symmetry; apply app_nil_r].
  apply yields_after_log; [apply Promise_all_idle|apply yields_log].
Qed.

Lemma numbered_length {A} n (xs : list A) : length (numbered n xs) = length xs.
Proof. revert n. induction xs as [|x xs IH]; intros n; cbn; by rewrite ?IH. Qed.

Lemma numbered_snd {A} n (xs : list A) : map snd (numbered n xs) = xs.
Proof. revert n. induction xs as [|x xs IH]; intros n; cbn; by rewrite ?IH. Qed.

Lemma numbered_fst {A} n (xs : list A) : map fst (numbered n xs) = seq n (length xs).
Proof. revert n. induction xs as [|x xs IH]; intros n; cbn; by rewrite ?IH. Qed.

Lemma spawn_endpoints env config eps n k cs :
  ∃ cs',
    Forall2 (flies env) cs' (numbered n (terminate_requests eps))
    ∧ yields
        (map_M (λ endpoint, spawn env (terminateEndpoint config (url endpoint))) eps)
        {| created := n; choices := k; in_flight := cs |}
        (sent (numbered n (terminate_requests eps)))
        {| created := n + length eps; choices := k; in_flight := cs ++ cs' |}
        (map fst (numbered n (terminate_requests eps))).
Proof.
  revert n cs. induction eps as [|ep eps IH]; intros n cs.
  - exists []. split; [constructor|]. cbn. rewrite Nat.add_0_r, app_nil_r.
    apply yields_ret.
  - set (c := flying env (terminateEndpoint config (url ep)) n
                (terminate_request (url ep))).
    destruct (IH (S n) (cs ++ [c])) as (cs' & Hfly & Hy).
    exists (c :: cs'). split.
    + constructor; [|done]. apply flying_flies, terminate_client.
    + cbn [map_M terminate_requests map numbered sent length].
      rewrite <- Nat.add_succ_comm, (cons_middle c cs cs'), app_assoc.
      eapply yields_bind_as;
        [apply (spawn_yields env (terminateEndpoint config (url ep))
                  (terminate_request (url ep))
                  {| created := n; choices := k; in_flight := cs |}),
           terminate_client
        |eapply yields_bind_as; [exact Hy|apply yields_ret|reflexivity]
        |cbn; by rewrite app_nil_r].
Qed.

Lemma terminateAllEndpoints_yields env config n k :
  ∃ order,
    order ≡ₚ numbered n (terminate_requests (endpoints config))
    ∧ yields (terminateAllEndpoints env config) (idle n k)
        (sent (numbered n (terminate_requests (endpoints config)))
         ++ answered env order)
        (idle (n + length (endpoints config)) (k + length (endpoints config)))
        tt.
Proof.
  destruct (spawn_endpoints env config (endpoints config) n k [])
    as (cs & Hfly & Hspawn).
  destruct (Promise_all_batch env cs _ (n + length (endpoints config)) k Hfly)
    as (order & Hperm & Hall).
  exists order. split; [done|].
  unfold terminateAllEndpoints.
  apply yields_after_log; [apply yields_log|].
  eapply yields_bind_as; [exact Hspawn| |reflexivity].
  rewrite numbered_length in Hall.
  replace (length (terminate_requests (endpoints config)))
    with (length (endpoints config)) in Hall by (symmetry; apply length_map).
  eapply yields_bind_as; [exact Hall|apply yields_log|].
  by rewrite app_nil_r.
Qed.

Lemma runOrchestration_yields env config n k :
  ∃ order,
    order ≡ₚ numbered n (terminate_requests (endpoints config))
    ∧ yields (runOrchestration env config) (idle n k)
        (sent (numbered n (terminate_requests (endpoints config)))
         ++ answered env order
         ++ serve_all env (n + length (endpoints config)) (endpoints config))
        (idle (n + length (endpoints config)
               + length (all_execute_calls env (endpoints config)))
              (k + length (endpoints config)
               + length (all_execute_calls env (endpoints config))))
        tt.
Proof.
  destruct (terminateAllEndpoints_yields env config n k) as (order & Hperm & Hy).
  exists order. split; [done|].
  unfold runOrchestration. apply yields_try.
  eapply yields_bind_as; [exact Hy|apply executeAllWorkflows_yields|].
  by rewrite app_assoc.
Qed.

(** What the observations make of the expected events. *)
Lemma calls_sent batch : calls (sent batch) = map snd batch.
Proof. induction batch as [|[p r] batch IH]; cbn; [done|]. f_equal. exact IH. Qed.

Lemma calls_answered env batch : calls (answered env batch) = [].
Proof. induction batch as [|[p r] batch IH]; cbn; [done|]. exact IH. Qed.

Lemma calls_load_and_serve env endpoint n wfs :
  calls (load_and_serve env endpoint n wfs) = execute_calls env endpoint wfs.
Proof.
  revert n. induction wfs as [|wf wfs IH]; intros n; [done|].
  cbn [load_and_serve execute_calls flat_map].
  destruct (execute_call_cases env endpoint wf) as [[_ ->]|[_ ->]]; cbn; by rewrite IH.
Qed.

Lemma calls_serve_all env n eps : calls (serve_all env n eps) = all_execute_calls env eps.
Proof.
  revert n. induction eps as [|ep eps IH]; intros n; [done|].
  cbn [serve_all all_execute_calls flat_map].
  by rewrite calls_app, calls_load_and_serve, IH.
Qed.

Lemma runOrchestration_calls env config n k :
  calls (events (runOrchestration env config (idle n k)))
  = terminate_requests (endpoints config)
    ++ all_execute_calls env (endpoints config).
Proof.
  destruct (runOrchestration_yields env config n k) as (order & _ & Hq & _).
  rewrite <- calls_quiet, Hq, !calls_app, calls_sent, calls_answered, calls_serve_all.
  by rewrite numbered_snd.
Qed.

(** ** Reloading an endpoint *)

Lemma start_workflows_yields env config endpoint wfs ps n k cs :
  ∃ cs',
    Forall2 (flies env) cs' (numbered n (execute_calls env endpoint wfs))
    ∧ yields (start_workflows env config endpoint wfs ps)
        {| created := n; choices := k; in_flight := cs |}
        (load_and_send env endpoint n wfs)
        {| created := n + length (execute_calls env endpoint wfs); choices := k;
           in_flight := cs ++ cs' |}
        (ps ++ map fst (numbered n (execute_calls env endpoint wfs))).
Proof.
  revert ps n cs. induction wfs as [|wf wfs IH]; intros ps n cs.
  - exists []. split; [constructor|]. cbn. rewrite Nat.add_0_r, !app_nil_r.
    apply yields_ret.
  - cbn [start_workflows load_and_send execute_calls flat_map].
    destruct (execute_call_cases env endpoint wf) as [[Ht ->]|[Ht ->]].
    + destruct (IH ps n cs) as (cs' & Hfly & Hy).
      exists cs'. split; [done|]. cbn [app].
      eapply yields_bind_as; [apply loadWorkflowFile_yields| |reflexivity].
      by rewrite Ht.
    + set (document := loaded env (workflow wf)) in *.
      set (call := executeWorkflow config (url endpoint) (port wf) document).
      set (req := execute_request (url endpoint) (port wf) document).
      set (c := flying env call n req).
      destruct (IH (ps ++ [n]) (S n) (cs ++ [c])) as (cs' & Hfly & Hy).
      exists (c :: cs'). split.
      * constructor; [|done]. apply flying_flies, execute_client.
      * cbn [app length numbered map fst].
        rewrite <- Nat.add_succ_comm, (cons_middle c cs cs'), app_assoc.
        rewrite (cons_middle n ps), app_assoc.
        eapply yields_bind_as; [apply loadWorkflowFile_yields| |reflexivity].
        fold document. rewrite Ht.
        eapply yields_bind_as;
          [apply (spawn_yields env call req
                    {| created := n; choices := k; in_flight := cs |}),
             execute_client
          |exact Hy|reflexivity].
Qed.

Lemma find_endpoint_url config endpointUrl endpoint :
  find_endpoint config endpointUrl = Some endpoint → url endpoint = endpointUrl.
Proof.
  intros H. apply find_some in H as [_ H]. by apply String.eqb_eq in H.
Qed.

Lemma executeWorkflowsForEndpoint_found env config endpointUrl endpoint n k :
  find_endpoint config endpointUrl = Some endpoint →
  ∃ segment,
    reload_cycle env endpoint n segment
    ∧ yields (executeWorkflowsForEndpoint env config endpointUrl) (idle n k)
        segment
        (idle (S n + length (execute_calls env endpoint (workflows_or_empty endpoint)))
              (S k + length (execute_calls env endpoint (workflows_or_empty endpoint))))
        tt.
Proof.
  intros Hfind. unfold executeWorkflowsForEndpoint.
  unfold find_endpoint in Hfind. rewrite Hfind.
  set (wfs := workflows_or_empty endpoint).
  destruct (start_workflows_yields env config endpoint wfs [] (S n) (S k) [])
    as (cs & Hfly & Hstart).
  destruct (Promise_all_batch env cs _
              (S n + length (execute_calls env endpoint wfs)) (S k) Hfly)
    as (order & Hperm & Hall).
  rewrite numbered_length in Hall.
  eexists. split; [exists order; split; [exact Hperm|reflexivity]|].
  apply yields_after_log; [apply yields_log|].
  eapply yields_bind_as;
    [apply await_yields, terminate_client| |reflexivity].
  apply yields_after_log; [apply yields_log|].
  eapply yields_bind_as; [exact Hstart| |reflexivity].
  eapply yields_bind_as; [exact Hall|apply yields_log|].
  by rewrite app_nil_r.
Qed.

Lemma executeWorkflowsForEndpoint_missing env config endpointUrl s :
  find_endpoint config endpointUrl = None →
  yields (executeWorkflowsForEndpoint env config endpointUrl) s [] s tt.
Proof.
  intros Hfind. unfold executeWorkflowsForEndpoint.
  unfold find_endpoint in Hfind. rewrite Hfind. apply yields_log.
Qed.

(** ** The change handler *)

Lemma for_each_attempts (reload : string → M unit) urls s :
  let r := for_each urls (λ endpointUrl,
             try_catch (reload endpointUrl)
               (λ error, log ("ERROR: Failed to reload endpoint " +:+ endpointUrl +:+ ":")
                             [message error])) s in
  events r = (attempts reload urls s).1
  ∧ after r = (attempts reload urls s).2
  ∧ outcome r = Returned tt.
Proof.
  set (body := λ endpointUrl : string, try_catch (reload endpointUrl) _).
  revert s. induction urls as [|u urls IH]; intros s; [done|].
  cbn [for_each attempts]. cbv zeta.
  destruct (attempts reload urls (after (reload u s))) as [t s'] eqn:Hrest.
  unfold mbind, task_mbind, task_bind.
  assert (after (body u s) = after (reload u s)) as Hafter.
  { unfold body, try_catch. by destruct (outcome (reload u s)). }
  assert (outcome (body u s) = Returned tt) as ->.
  { unfold body, try_catch. by destruct (outcome (reload u s)) as [[]|] eqn:Ho. }
  rewrite Hafter. destruct (IH (after (reload u s))) as (He & Hs & Hr).
  rewrite Hrest in He, Hs. cbn [events after outcome fst snd] in *.
  rewrite He, Hs, Hr. repeat split. rewrite app_assoc. f_equal.
  unfold body, try_catch. destruct (outcome (reload u s)); [|done].
  by rewrite app_nil_r.
Qed.

Lemma find_endpoint_configured config endpoint :
  endpoint ∈ endpoints config → is_Some (find_endpoint config (url endpoint)).
Proof.
  intros Hin. unfold find_endpoint.
  destruct (List.find _ _) eqn:Hfind; [eauto|].
  apply list_elem_of_In in Hin.
  pose proof (find_none _ _ Hfind _ Hin) as Hno. cbn in Hno.
  by rewrite String.eqb_refl in Hno.
Qed.

Lemma indexed_urls eps filename urls :
  Index.fileToEndpoints eps !! filename = Some urls →
  urls = Index.referencing eps filename
  ∧ Forall (λ u, ∃ endpoint, endpoint ∈ eps ∧ url endpoint = u) urls.
Proof.
  rewrite fileToEndpoints_lookup. intros Hidx.
  assert (urls = Index.referencing eps filename) as ->.
  { destruct (Index.referencing eps filename); [done|]. by inversion Hidx. }
  split; [done|]. apply Forall_forall. intros u Hu.
  apply list_elem_of_In, in_flat_map in Hu as (ep & Hep & Hu).
  apply in_flat_map in Hu as (wf & _ & Hu).
  exists ep. split; [by apply list_elem_of_In|].
  case_decide; [|done]. by destruct Hu as [<-|[]].
Qed.

Lemma reload_loop env config urls n k :
  Forall (λ u, is_Some (find_endpoint config u)) urls →
  ∃ t n' k',
    reload_cycles env config urls n t
    ∧ yields
        (for_each urls (λ endpointUrl,
           try_catch (executeWorkflowsForEndpoint env config endpointUrl)
             (λ error, log ("ERROR: Failed to reload endpoint " +:+ endpointUrl +:+ ":")
                           [message error])))
        (idle n k) t (idle n' k') tt.
Proof.
  intros Hall. revert n k. induction Hall as [|u urls [endpoint Hfind] _ IH]; intros n k.
  - exists [], n, k. split; [done|]. apply yields_ret.
  - destruct (executeWorkflowsForEndpoint_found env config u endpoint n k Hfind)
      as (segment & Hcycle & Hy).
    edestruct IH as (t & n' & k' & Hcycles & Hloop).
    exists (segment ++ t), n', k'. split.
    + exists endpoint, segment, t.
      split; [done|]. split; [by eapply find_endpoint_url|].
      split; [done|]. split; [done|exact Hcycles].
    + cbn [for_each]. eapply yields_bind; [apply yields_try, Hy|exact Hloop].
Qed.

(** ** The claims on the client and the loader *)

(** C5. Execute request shape: for every url, port and document,
    awaiting [executeWorkflow] sends exactly one request, a POST to
    http://{url}/api/bentoml/serve with the JSON content type, whose body
    is the object with [parallel] true, [host] "0.0.0.0", [port] the
    decimal numeral of the port as a string, and [workflow_api] the
    document as it was loaded; distinct ports give distinct strings. *)
Theorem execute_request_shape :
  ∀ (env : Env) (config : Config) (url : string) (port : Z) (document : json) (n k : nat),
    calls (events (await env (executeWorkflow config url port document) (idle n k)))
    = [ {| req_url := "http://" +:+ url +:+ "/api/bentoml/serve";
           req_method := "POST";
           req_headers := [("Content-Type", "application/json")];
           req_body := Some (JObj [("parallel", JBool true);
                                   ("host", JStr "0.0.0.0");
                                   ("port", JStr (toString port));
                                   ("workflow_api", document)]) |} ]
    ∧ toString 8188 = "8188"
    ∧ ∀ other, toString port = toString other → port = other.
Proof.
  intros env config url port document n k. split; [|split].
  - destruct (await_yields env _ _ n k (execute_client config url port document))
      as (Hq & _ & _).
    by rewrite <- calls_quiet, Hq.
  - reflexivity.
  - intros other H. by apply (inj pretty).
Qed.

Lemma load_fails_loaded env filename : load_fails env filename → loaded env filename = JNull.
Proof.
  unfold load_fails, loaded.
  destruct (readFileSync env (path_resolve env filename)) as [content|]; [|done].
  by destruct (JSON_parse env content).
Qed.

Lemma holds_json_loaded env filename value :
  holds_json env filename value → loaded env filename = value.
Proof. intros (content & Hread & Hparse). unfold loaded. by rewrite Hread, Hparse. Qed.

Lemma reads_load_and_serve env endpoint n wfs :
  reads (load_and_serve env endpoint n wfs)
  = map (λ workflowConfig, path_resolve env (workflow workflowConfig)) wfs.
Proof.
  revert n. induction wfs as [|wf wfs IH]; intros n; [done|].
  cbn [load_and_serve map].
  destruct (execute_call_cases env endpoint wf) as [[_ ->]|[_ ->]]; cbn; by rewrite IH.
Qed.

Lemma reads_serve_all env n eps : reads (serve_all env n eps) = all_paths env eps.
Proof.
  revert n. induction eps as [|ep eps IH]; intros n; [done|].
  cbn [serve_all all_paths flat_map].
  by rewrite reads_app, reads_load_and_serve, IH.
Qed.

Lemma executeAllWorkflows_calls env config n k :
  calls (events (executeAllWorkflows env config (idle n k)))
  = all_execute_calls env (endpoints config).
Proof.
  destruct (executeAllWorkflows_yields env config n k) as (Hq & _).
  by rewrite <- calls_quiet, Hq, calls_serve_all.
Qed.

Lemma all_execute_calls_app env eps1 eps2 :
  all_execute_calls env (eps1 ++ eps2)
  = all_execute_calls env eps1 ++ all_execute_calls env eps2.
Proof. apply flat_map_app. Qed.

Lemma execute_calls_app env endpoint wfs1 wfs2 :
  execute_calls env endpoint (wfs1 ++ wfs2)
  = execute_calls env endpoint wfs1 ++ execute_calls env endpoint wfs2.
Proof. apply flat_map_app. Qed.

Lemma all_execute_calls_at env before_it endpoint after_it wfs v :
  all_execute_calls env (endpoints (with_workflows before_it endpoint after_it wfs v))
  = all_execute_calls env before_it
    ++ execute_calls env endpoint wfs
    ++ all_execute_calls env after_it.
Proof.
  unfold with_workflows; cbn [endpoints]. rewrite all_execute_calls_app.
  reflexivity.
Qed.

Lemma execute_calls_failing env endpoint wfs1 failing wfs2 :
  load_fails env (workflow failing) →
  execute_calls env endpoint (wfs1 ++ failing :: wfs2)
  = execute_calls env endpoint (wfs1 ++ wfs2).
Proof.
  intros Hfail. rewrite !execute_calls_app. cbn [execute_calls flat_map].
  assert (execute_call env endpoint failing = []) as ->; [|done].
  unfold execute_call. by rewrite load_fails_loaded.
Qed.

(** A sibling whose file holds zero, next to a file that is missing: the
    sibling is read and parsed, and no execute request is sent for it. *)
Lemma bulk_pass_skips_loaded_sibling :
  ¬ siblings_still_executed example_env {| url := "endpointB"; workflows := None |}
      [ {| workflow := "fileY"; port := 3002 |} ]
      {| workflow := "gone"; port := 3003 |} [].
Proof.
  intros Hclaim.
  assert (execute_request "endpointB" 3002 (JNum (QArith_base.Qmake 0 1)) ∈ @nil Request)
    as Hin; [|by inversion Hin].
  apply (Hclaim I {| workflow := "fileY"; port := 3002 |}).
  - by left.
  - exists "0". by split.
Qed.

(** C6. Workflow loader contract, as the code has it: for every path,
    [loadWorkflowFile] does not throw; it returns the parsed document when
    the file is read and parsed, and null when reading or parsing fails.
    In the bulk pass, when the file of one workflow fails to load, every
    workflow file is still read, the calls sent are those of the
    configuration without that workflow, so none is sent for it, and every
    sibling whose file holds a truthy document has its execute call
    sent. *)
Theorem loader_contract :
  ∀ (env : Env),
    (∀ (filename : string) (s : Loop),
        let r := loadWorkflowFile env filename s in
        (∃ value, outcome r = Returned value)
        ∧ (∀ value, holds_json env filename value → outcome r = Returned value)
        ∧ (load_fails env filename → outcome r = Returned JNull))
    ∧ (∀ (v : bool) (before_it after_it : list EndpointConfig) (endpoint : EndpointConfig)
         (wfs1 wfs2 : list WorkflowConfig) (failing : WorkflowConfig) (n k : nat),
          load_fails env (workflow failing) →
          let config := with_workflows before_it endpoint after_it
                          (wfs1 ++ failing :: wfs2) v in
          let without := with_workflows before_it endpoint after_it (wfs1 ++ wfs2) v in
          let r := executeAllWorkflows env config (idle n k) in
          outcome r = Returned tt
          ∧ reads (events r) = all_paths env (endpoints config)
          ∧ calls (events r)
            = calls (events (executeAllWorkflows env without (idle n k)))
          ∧ ∀ sibling value,
              sibling ∈ wfs1 ++ wfs2 →
              holds_json env (workflow sibling) value →
              truthy value = true →
              execute_request (url endpoint) (port sibling) value ∈ calls (events r)).
Proof.
  intros env. split.
  - intros filename s r.
    destruct (loadWorkflowFile_yields env filename s) as (_ & _ & Ho).
    subst r. rewrite Ho. split; [eauto|]. split.
    + intros value H. by rewrite (holds_json_loaded env filename value).
    + intros H. by rewrite load_fails_loaded.
  - intros v before_it after_it endpoint wfs1 wfs2 failing n k Hfail config without r.
    destruct (executeAllWorkflows_yields env config n k) as (Hq & _ & Ho).
    assert (calls (events r)
            = all_execute_calls env before_it
              ++ execute_calls env endpoint (wfs1 ++ wfs2)
              ++ all_execute_calls env after_it) as Hcalls.
    { subst r. rewrite executeAllWorkflows_calls. subst config.
      by rewrite all_execute_calls_at, execute_calls_failing. }
    split; [exact Ho|]. split; [|split].
    + subst r. by rewrite <- reads_quiet, Hq, reads_serve_all.
    + rewrite Hcalls, executeAllWorkflows_calls. subst without.
      by rewrite all_execute_calls_at.
    + intros sibling value Hin Hholds Htruthy. rewrite Hcalls.
      apply elem_of_app. right. apply elem_of_app. left.
      apply list_elem_of_In, in_flat_map.
      exists sibling. split; [by apply list_elem_of_In|].
      unfold execute_call. rewrite (holds_json_loaded env _ value) by done.
      rewrite Htruthy. by left.
Qed.

Lemma loader_contract_witness :
  outcome (loadWorkflowFile example_env "gone" (idle 0 0)) = Returned JNull
  ∧ execute_request "endpointB" 3001 (JObj [])
    ∈ calls (events (executeAllWorkflows example_env
                       (with_workflows [] {| url := "endpointB"; workflows := None |} []
                          ([{| workflow := "fileX"; port := 3001 |}]
                           ++ {| workflow := "gone"; port := 3002 |} :: []) false)
                       (idle 0 0))).
Proof.
  destruct (loader_contract example_env) as [Hload Hbulk]. split.
  - apply Hload. exact I.
  - destruct (Hbulk false [] [] {| url := "endpointB"; workflows := None |}
                [{| workflow := "fileX"; port := 3001 |}] []
                {| workflow := "gone"; port := 3002 |} 0 0 I)
      as (_ & _ & _ & Hsibling).
    apply (Hsibling {| workflow := "fileX"; port := 3001 |}).
    + by left.
    + exists "{}". by split.
    + reflexivity.
Defined.

(** ** The claims on the bulk pass *)

(** The bulk pass in the example world, log lines apart: both terminate
    requests are sent before either promise settles, the second settles
    first, and each execute call is awaited before the next file is read;
    fileY holds zero and is not executed. *)
Example bulk_pass_in_the_example_world :
  quiet (events (runOrchestration example_env example_config (idle 0 0)))
  = [Fetch 0 (terminate_request "endpointA");
     Fetch 1 (terminate_request "endpointB");
     Settled 1 (Returned false);
     Settled 0 (Returned true);
     ReadFile "/srv/fileX";
     Fetch 2 (execute_request "endpointA" 3000 (JObj []));
     Settled 2 (Returned true);
     ReadFile "/srv/fileX";
     Fetch 3 (execute_request "endpointB" 3001 (JObj []));
     Settled 3 (Returned false);
     ReadFile "/srv/fileY"].
Proof. reflexivity. Qed.

Lemma no_file_loads env eps :
  (∀ endpoint workflowConfig,
      endpoint ∈ eps → workflowConfig ∈ workflows_or_empty endpoint →
      load_fails env (workflow workflowConfig)) →
  all_execute_calls env eps = [].
Proof.
  intros Hnone. unfold all_execute_calls.
  induction eps as [|ep eps IH]; [done|]. cbn [flat_map].
  rewrite IH by (intros ? ? ?; apply Hnone; by right).
  rewrite app_nil_r.
  assert (∀ wf, wf ∈ workflows_or_empty ep → load_fails env (workflow wf)) as Hep
    by (intros wf; apply Hnone; by left).
  induction (workflows_or_empty ep) as [|wf wfs IHw]; [done|].
  cbn [execute_calls flat_map]. unfold execute_calls in IHw.
  rewrite IHw by (intros ? ?; apply Hep; by right).
  unfold execute_call. rewrite load_fails_loaded by (apply Hep; by left). done.
Qed.

(** C8. Bulk pass shape: for every configuration, the bulk pass, started
    while no other call is in flight, first sends the terminate request of every endpoint, one per endpoint in
    configuration order, before any of their promises settles; the
    promises then all settle, in some order; only after that come the file
    reads and every execute request of the pass.  When none of the
    workflow files loads, the pass sends no execute request at all: its
    requests are exactly the N terminate requests. *)
Theorem bulk_pass_shape :
  ∀ (env : Env) (config : Config) (n k : nat),
    let eps := endpoints config in
    let r := runOrchestration env config (idle n k) in
    let batch := numbered n (terminate_requests eps) in
    outcome r = Returned tt
    ∧ ∃ order rest,
        order ≡ₚ batch
        ∧ quiet (events r) = sent batch ++ answered env order ++ rest
        ∧ calls rest = all_execute_calls env eps
        ∧ ((∀ endpoint workflowConfig,
               endpoint ∈ eps → workflowConfig ∈ workflows_or_empty endpoint →
               load_fails env (workflow workflowConfig)) →
           calls rest = []
           ∧ calls (events r) = terminate_requests eps
           ∧ length (calls (events r)) = length eps).
Proof.
  intros env config n k eps r batch.
  destruct (runOrchestration_yields env config n k) as (order & Hperm & Hq & _ & Ho).
  split; [exact Ho|].
  exists order, (serve_all env (n + length eps) eps).
  split; [exact Hperm|]. split; [exact Hq|]. split; [apply calls_serve_all|].
  intros Hnone. pose proof (no_file_loads env eps Hnone) as Hno.
  split; [by rewrite calls_serve_all|].
  subst r. rewrite runOrchestration_calls. fold eps. rewrite Hno, app_nil_r.
  split; [done|]. apply length_map.
Qed.

Lemma bulk_pass_shape_witness :
  calls (events (runOrchestration example_env missing_files_config (idle 0 0)))
  = [terminate_request "endpointA"; terminate_request "endpointB";
     terminate_request "endpointC"].
Proof.
  destruct (bulk_pass_shape example_env missing_files_config 0 0)
    as (_ & order & rest & _ & _ & _ & Hnone).
  apply Hnone. intros endpoint workflowConfig Hep Hwf.
  repeat (apply elem_of_cons in Hep as [->|Hep]);
    [| |by inversion Hwf|by inversion Hep];
    apply list_elem_of_singleton in Hwf as ->; exact I.
Defined.

(** C9. Bulk-pass idempotence: for every configuration and every content
    of the workflow files, a second bulk pass right after the first sends
    the same requests in the same order, whatever the endpoints answer and
    in whatever order the promises settle in either pass. *)
Theorem bulk_pass_idempotent :
  ∀ (env : Env) (config : Config) (n k : nat)
    (fetch' : nat → Request → FetchOutcome) (next_ready' : nat → nat),
    let first := runOrchestration env config (idle n k) in
    let second :=
      runOrchestration (with_network env fetch' next_ready') config (after first) in
    outcome first = Returned tt
    ∧ outcome second = Returned tt
    ∧ calls (events second) = calls (events first).
Proof.
  intros env config n k fetch' next_ready' first second.
  destruct (runOrchestration_yields env config n k) as (order & _ & _ & Hs & Ho).
  subst second. fold first in Hs, Ho. rewrite Hs.
  destruct (runOrchestration_yields (with_network env fetch' next_ready') config
              (n + length (endpoints config)
               + length (all_execute_calls env (endpoints config)))
              (k + length (endpoints config)
               + length (all_execute_calls env (endpoints config))))
    as (order' & _ & _ & _ & Ho').
  split; [exact Ho|]. split; [exact Ho'|].
  subst first. by rewrite !runOrchestration_calls.
Qed.

(** ** Documents that are falsy *)

Lemma truthy_false_cases value :
  truthy value = false
  ↔ value = JNull ∨ value = JBool false
    ∨ (∃ q, value = JNum q ∧ QArith_base.Qnum q = 0%Z) ∨ value = JStr "".
Proof.
  split.
  - destruct value as [ | b | q | s | items | fields ]; [| destruct b | | | | ];
      cbn; intros H; try done; auto.
    + apply negb_false_iff, Z.eqb_eq in H. right; right; left. eauto.
    + apply negb_false_iff, String.eqb_eq in H. subst. auto.
  - intros [-> | [-> | [(q & -> & Hq) | ->]]]; cbn; try done.
    by rewrite Hq.
Qed.

Lemma execute_call_unreadable env filename value endpoint workflowConfig :
  holds_json env filename value → truthy value = false →
  execute_call (unreadable env filename) endpoint workflowConfig
  = execute_call env endpoint workflowConfig.
Proof.
  intros Hholds Hfalsy. unfold execute_call.
  assert (loaded (unreadable env filename) (workflow workflowConfig)
          = if String.eqb (path_resolve env (workflow workflowConfig))
                          (path_resolve env filename)
            then JNull else loaded env (workflow workflowConfig)) as ->.
  { unfold loaded, unreadable; cbn. by destruct (String.eqb _ _). }
  destruct (String.eqb _ _) eqn:Hsame; [|done].
  apply String.eqb_eq in Hsame.
  assert (loaded env (workflow workflowConfig) = value) as ->.
  { unfold loaded. rewrite Hsame. by apply holds_json_loaded. }
  by rewrite Hfalsy.
Qed.

Lemma execute_calls_unreadable env filename value endpoint wfs :
  holds_json env filename value → truthy value = false →
  execute_calls (unreadable env filename) endpoint wfs = execute_calls env endpoint wfs.
Proof.
  intros Hholds Hfalsy. unfold execute_calls.
  induction wfs as [|wf wfs IH]; [done|]. cbn [flat_map].
  by rewrite IH, (execute_call_unreadable env filename value).
Qed.

Lemma all_execute_calls_unreadable env filename value eps :
  holds_json env filename value → truthy value = false →
  all_execute_calls (unreadable env filename) eps = all_execute_calls env eps.
Proof.
  intros Hholds Hfalsy. unfold all_execute_calls.
  induction eps as [|ep eps IH]; [done|]. cbn [flat_map].
  by rewrite IH, (execute_calls_unreadable env filename value).
Qed.

Lemma execute_calls_truthy env endpoint wfs r :
  r ∈ execute_calls env endpoint wfs →
  ∃ u p document, r = execute_request u p document ∧ truthy document = true.
Proof.
  intros Hr. apply list_elem_of_In, in_flat_map in Hr as (wf & _ & Hr).
  destruct (execute_call_cases env endpoint wf) as [[_ Hc]|[Ht Hc]];
    rewrite Hc in Hr; [done|].
  destruct Hr as [<-|[]]. eauto.
Qed.

Lemma all_execute_calls_truthy env eps r :
  r ∈ all_execute_calls env eps →
  ∃ u p document, r = execute_request u p document ∧ truthy document = true.
Proof.
  intros Hr. apply list_elem_of_In, in_flat_map in Hr as (ep & _ & Hr).
  eapply execute_calls_truthy. apply list_elem_of_In, Hr.
Qed.

Lemma calls_load_and_send env endpoint n wfs :
  calls (load_and_send env endpoint n wfs) = execute_calls env endpoint wfs.
Proof.
  revert n. induction wfs as [|wf wfs IH]; intros n; [done|].
  cbn [load_and_send execute_calls flat_map].
  destruct (execute_call_cases env endpoint wf) as [[_ ->]|[_ ->]]; cbn; by rewrite IH.
Qed.

Lemma reload_cycle_calls env endpoint n segment :
  reload_cycle env endpoint n segment →
  calls segment
  = terminate_request (url endpoint)
    :: execute_calls env endpoint (workflows_or_empty endpoint).
Proof.
  intros (order & _ & ->).
  change (calls (?a :: ?b :: ?t)) with (calls [a; b] ++ calls t). cbn [calls flat_map app settles].
  by rewrite calls_app, calls_load_and_send, calls_answered, app_nil_r.
Qed.

Lemma executeWorkflowsForEndpoint_calls env config endpointUrl n k :
  calls (events (executeWorkflowsForEndpoint env config endpointUrl (idle n k)))
  = match find_endpoint config endpointUrl with
    | Some endpoint =>
        terminate_request (url endpoint)
        :: execute_calls env endpoint (workflows_or_empty endpoint)
    | None => []
    end.
Proof.
  destruct (find_endpoint config endpointUrl) as [endpoint|] eqn:Hfind.
  - destruct (executeWorkflowsForEndpoint_found env config endpointUrl endpoint n k Hfind)
      as (segment & Hcycle & Hq & _).
    rewrite <- calls_quiet, Hq. by apply (reload_cycle_calls env endpoint n).
  - destruct (executeWorkflowsForEndpoint_missing env config endpointUrl (idle n k) Hfind)
      as (Hq & _).
    by rewrite <- calls_quiet, Hq.
Qed.

Lemma terminate_is_not_execute u u' p document :
  terminate_request u ≠ execute_request u' p document.
Proof. done. Qed.

Lemma execute_request_document u p document u' p' document' :
  execute_request u p document = execute_request u' p' document' → document = document'.
Proof. by intros [= _ _ ->]. Qed.

(** C10. Falsy documents: the values [JSON.parse] can return that fail the
    test [if (workflowData)] are null, false, zero and the empty string.
    For every workflow file that holds such a value, the bulk pass and the
    reload of any endpoint send the very requests they send when the file
    cannot be read, and none of them carries that value. *)
Theorem falsy_documents_skipped :
  (∀ value,
      truthy value = false
      ↔ value = JNull ∨ value = JBool false
        ∨ (∃ q, value = JNum q ∧ QArith_base.Qnum q = 0%Z) ∨ value = JStr "")
  ∧ ∀ (env : Env) (config : Config) (filename : string) (value : json) (n k : nat),
      holds_json env filename value →
      truthy value = false →
      let failed := unreadable env filename in
      let bulk := calls (events (runOrchestration env config (idle n k))) in
      bulk = calls (events (runOrchestration failed config (idle n k)))
      ∧ Forall (λ r, ∀ u p, r ≠ execute_request u p value) bulk
      ∧ ∀ endpointUrl,
          let reload :=
            calls (events (executeWorkflowsForEndpoint env config endpointUrl (idle n k))) in
          reload
          = calls (events (executeWorkflowsForEndpoint failed config endpointUrl (idle n k)))
          ∧ Forall (λ r, ∀ u p, r ≠ execute_request u p value) reload.
Proof.
  split; [apply truthy_false_cases|].
  intros env config filename value n k Hholds Hfalsy failed bulk.
  assert (∀ r u p document, r = execute_request u p document → truthy document = true →
          ∀ u' p', r ≠ execute_request u' p' value) as Hother.
  { intros r u p document -> Ht u' p' Heq.
    apply execute_request_document in Heq as ->. congruence. }
  split; [|split].
  - subst bulk failed. rewrite !runOrchestration_calls.
    by rewrite (all_execute_calls_unreadable env filename value).
  - subst bulk. rewrite runOrchestration_calls. apply Forall_app. split.
    + apply Forall_forall. intros r Hr u p.
      apply list_elem_of_fmap in Hr as (ep & -> & _). apply terminate_is_not_execute.
    + apply Forall_forall. intros r Hr.
      apply all_execute_calls_truthy in Hr as (u & p & document & Hr & Ht).
      by eapply Hother.
  - intros endpointUrl reload. subst reload failed.
    rewrite !executeWorkflowsForEndpoint_calls.
    destruct (find_endpoint config endpointUrl) as [endpoint|]; [|done].
    rewrite (execute_calls_unreadable env filename value) by done.
    split; [done|]. constructor; [intros; apply terminate_is_not_execute|].
    apply Forall_forall. intros r Hr.
    apply execute_calls_truthy in Hr as (u & p & document & Hr & Ht).
    by eapply Hother.
Qed.

Lemma falsy_documents_skipped_witness :
  calls (events (runOrchestration example_env example_config (idle 0 0)))
  = calls (events (runOrchestration (unreadable example_env "fileY") example_config
                     (idle 0 0))).
Proof.
  destruct falsy_documents_skipped as [_ H].
  apply (H example_env example_config "fileY" (JNum (QArith_base.Qmake 0 1)) 0 0).
  - exists "0". by split.
  - reflexivity.
Defined.

(** ** The claims on the change handler *)

(** A change of fileX in the example world, log lines apart: endpointA is
    reloaded, then endpointB; both files of endpointB are read before the
    promise of its execute call settles. *)
Example change_of_fileX_in_the_example_world :
  quiet (events (onChange example_env example_config
                   (Index.fileToEndpoints (endpoints example_config)) "fileX"
                   (idle 0 0)))
  = [Fetch 0 (terminate_request "endpointA");
     Settled 0 (Returned true);
     ReadFile "/srv/fileX";
     Fetch 1 (execute_request "endpointA" 3000 (JObj []));
     Settled 1 (Returned false);
     Fetch 2 (terminate_request "endpointB");
     Settled 2 (Returned true);
     ReadFile "/srv/fileX";
     Fetch 3 (execute_request "endpointB" 3001 (JObj []));
     ReadFile "/srv/fileY";
     Settled 3 (Returned false)].
Proof. by vm_compute. Qed.

Lemma log_then {S B} text args (k : Task S B) (s : S) :
  (log text args ;; k) s
  = {| events := Log (foldl (λ line arg, line +:+ " " +:+ arg) text args) :: events (k s);
       after := after (k s);
       outcome := outcome (k s) |}.
Proof. reflexivity. Qed.

Lemma onChange_with_run (reload : string → M unit) (idx : gmap string (list string))
    filename s :
  let r := onChange_with reload idx filename s in
  events r
  = Log ("Workflow file " +:+ filename +:+ " changed, reloading affected endpoints")
    :: (attempts reload (default [] (idx !! filename)) s).1
  ∧ after r = (attempts reload (default [] (idx !! filename)) s).2
  ∧ outcome r = Returned tt.
Proof.
  destruct (for_each_attempts reload (default [] (idx !! filename)) s) as (He & Hs & Ho).
  unfold onChange_with. rewrite log_then. cbn [events after outcome foldl].
  by rewrite He, Hs, Ho.
Qed.

(** The file of fileY is read and parsed, its endpoint is reloaded, and
    no execute request is sent for it. *)
Lemma change_handling_skips_loaded_zero :
  ¬ executes_every_loaded_document example_env example_config "fileY".
Proof.
  intros Hclaim.
  assert (execute_request "endpointB" 3002 (JNum (QArith_base.Qmake 0 1))
          ∈ [terminate_request "endpointB";
             execute_request "endpointB" 3001 (JObj [])]) as Hin.
  { apply (Hclaim ["endpointB"] "endpointB"
             {| url := "endpointB";
                workflows := Some [ {| workflow := "fileX"; port := 3001 |};
                                    {| workflow := "fileY"; port := 3002 |} ] |}
             {| workflow := "fileY"; port := 3002 |}).
    - by vm_compute.
    - by left.
    - reflexivity.
    - right. by left.
    - exists "0". by split. }
  apply elem_of_cons in Hin as [Hin|Hin]; [done|].
  apply list_elem_of_singleton in Hin. done.
Qed.

(** C2. Change handling, as the code has it: for every file-change event
    whose path is in the index of the current configuration, handled while
    no other call is in flight, the handler returns after one
    terminate-then-execute cycle per endpoint URL bound to the path, in
    recorded order and one after the other.  In each cycle
    the terminate request is sent and its promise settles, whatever its
    value; then every workflow file configured for the endpoint is read, in
    order, and the execute request of each is sent as soon as it is loaded,
    provided the loaded value is truthy; the promises of these calls settle
    only after the last of them is sent, and all have settled when the next
    cycle starts. *)
Theorem change_handling :
  ∀ (env : Env) (config : Config) (filename : string) (urls : list string) (n k : nat),
    Index.fileToEndpoints (endpoints config) !! filename = Some urls →
    let r := onChange env config (Index.fileToEndpoints (endpoints config)) filename
                      (idle n k) in
    outcome r = Returned tt
    ∧ in_flight (after r) = []
    ∧ reload_cycles env config urls n (quiet (events r)).
Proof.
  intros env config filename urls n k Hidx r.
  destruct (indexed_urls _ _ _ Hidx) as [_ Hurls].
  destruct (reload_loop env config urls n k) as (t & n' & k' & Hcycles & Hq & Hs & Ho).
  { eapply Forall_impl; [exact Hurls|]. intros u (ep & Hep & <-).
    by apply find_endpoint_configured. }
  subst r. unfold onChange, onChange_with. rewrite Hidx, log_then.
  cbn [default events after outcome quiet List.filter is_log negb]. unfold id.
  rewrite Ho, Hs. split; [done|]. split; [done|].
  change (List.filter _ ?t) with (quiet t). by rewrite Hq.
Qed.

Lemma change_handling_witness :
  reload_cycles example_env example_config ["endpointA"; "endpointB"] 0
    (quiet (events (onChange example_env example_config
                      (Index.fileToEndpoints (endpoints example_config)) "fileX"
                      (idle 0 0)))).
Proof.
  apply (change_handling example_env example_config "fileX"
           ["endpointA"; "endpointB"] 0 0).
  by vm_compute.
Defined.

Lemma attempts_app reload urls1 urls2 s :
  attempts reload (urls1 ++ urls2) s
  = ((attempts reload urls1 s).1
     ++ (attempts reload urls2 (attempts reload urls1 s).2).1,
     (attempts reload urls2 (attempts reload urls1 s).2).2).
Proof.
  revert s. induction urls1 as [|u urls1 IH]; intros s.
  - cbn. by destruct (attempts reload urls2 s).
  - cbn [app attempts]. cbv zeta. rewrite IH.
    destruct (attempts reload urls1 (after (reload u s))) as [t1 s1].
    cbn [fst snd]. destruct (attempts reload urls2 s1) as [t2 s2].
    cbn [fst snd]. by rewrite <- !app_assoc.
Qed.

(** C7. Per-endpoint isolation and stale events: whatever the function
    reloading an endpoint does, the change handler does not throw; each
    affected endpoint is attempted from the state the previous attempt
    left, so an endpoint whose reload throws costs one log line and the
    endpoints after it are still processed.  For a path that is not a key
    of the index the handler sends no request, reads no file and leaves
    the event loop as it was. *)
Theorem change_isolation :
  (∀ (reload : string → M unit) (index : gmap string (list string))
     (filename : string) (s : Loop),
      let r := onChange_with reload index filename s in
      let affected := default [] (index !! filename) in
      outcome r = Returned tt
      ∧ quiet (events r) = quiet (attempts reload affected s).1
      ∧ after r = (attempts reload affected s).2
      ∧ ∀ earlier endpointUrl later,
          affected = earlier ++ endpointUrl :: later →
          let s1 := (attempts reload earlier s).2 in
          let attempt := reload endpointUrl s1 in
          quiet (events r)
          = quiet (attempts reload earlier s).1
            ++ quiet (events attempt)
            ++ quiet (attempts reload later (after attempt)).1)
  ∧ (∀ (env : Env) (config : Config) (index : gmap string (list string))
       (filename : string) (s : Loop),
        index !! filename = None →
        let r := onChange env config index filename s in
        outcome r = Returned tt
        ∧ quiet (events r) = []
        ∧ calls (events r) = []
        ∧ after r = s).
Proof.
  split.
  - intros reload index filename s r affected.
    destruct (onChange_with_run reload index filename s) as (He & Hs & Ho).
    fold r affected in He, Hs, Ho.
    split; [exact Ho|]. split; [by rewrite He|]. split; [exact Hs|].
    intros earlier u later Haffected s1 attempt.
    rewrite He, Haffected, attempts_app. cbn [fst quiet List.filter is_log negb].
    change (List.filter _ ?t) with (quiet t). rewrite quiet_app. f_equal.
    cbn [attempts]. cbv zeta. fold s1 attempt.
    destruct (attempts reload later (after attempt)) as [t2 s2]. cbn [fst].
    rewrite !quiet_app. f_equal.
    destruct (outcome attempt); [done|]. done.
  - intros env config index filename s Hnone r.
    destruct (onChange_with_run (executeWorkflowsForEndpoint env config) index filename s)
      as (He & Hs & Ho).
    subst r. unfold onChange. rewrite Hnone in He, Hs. cbn in He, Hs.
    rewrite He, Hs, Ho. done.
Qed.

Lemma change_isolation_witness :
  calls (events (onChange example_env example_config
                   (Index.fileToEndpoints (endpoints example_config)) "fileZ"
                   (idle 0 0)))
  = [].
Proof.
  destruct change_isolation as [_ Hstale].
  apply (Hstale example_env example_config
           (Index.fileToEndpoints (endpoints example_config)) "fileZ" (idle 0 0)).
  by vm_compute.
Defined.

(** A reload that throws for endpointA: endpointB is still terminated and
    its workflows are still executed. *)
Example reload_throwing_for_one_endpoint :
  let reload := λ endpointUrl,
    if String.eqb endpointUrl "endpointA"
    then throw {| message := "unexpected" |}
    else executeWorkflowsForEndpoint example_env example_config endpointUrl in
  let r := onChange_with reload (Index.fileToEndpoints (endpoints example_config))
             "fileX" (idle 0 0) in
  outcome r = Returned tt
  ∧ calls (events r)
    = [terminate_request "endpointB"; execute_request "endpointB" 3001 (JObj [])].
Proof. by vm_compute. Qed.

(** ** The watch-handle lifecycle *)

Lemma active_snoc t e :
  Lifecycle.active (t ++ [e])
  = match e with
    | Lifecycle.Opened id _ => Lifecycle.active t ++ [id]
    | Lifecycle.Closed id => filter (λ w, w ≠ id) (Lifecycle.active t)
    end.
Proof. unfold Lifecycle.active. by rewrite foldl_app. Qed.

Lemma pass_settled_opens s :
  Lifecycle.passes s = 1 →
  Lifecycle.active (Lifecycle.trace s) = [] →
  at_rest (Lifecycle.pass_settled s).
Proof.
  intros Hpasses Hactive. unfold at_rest, Lifecycle.pass_settled, held.
  rewrite Hpasses. unfold Lifecycle.setupFileWatchers.
  destruct (Nat.eqb _ 0); cbn; [done|].
  by rewrite active_snoc, Hactive.
Qed.

Lemma notification_closes s next :
  at_rest s →
  let s' := Lifecycle.step s (Lifecycle.ConfigChanged next) in
  Lifecycle.passes s' = 1 ∧ Lifecycle.active (Lifecycle.trace s') = [].
Proof.
  intros [Hpasses Hactive]. cbn. rewrite Hpasses. split; [done|].
  unfold held in Hactive.
  destruct (Lifecycle.workflowWatcher s) as [watcher|]; [|done].
  rewrite active_snoc, Hactive. cbn. by case_decide.
Qed.

Lemma initial_pass_at_rest c :
  at_rest (Lifecycle.pass_settled (Lifecycle.initialize c)).
Proof. by apply pass_settled_opens. Qed.

(** As long as the notifications do not overlap, at most one watcher is
    open between the cycles, and none while a bulk pass runs. *)
Lemma one_at_a_time_at_rest s nexts :
  at_rest s → at_rest (Lifecycle.run s (one_at_a_time nexts)).
Proof.
  revert s. induction nexts as [|next nexts IH]; intros s Hrest; [done|].
  cbn [one_at_a_time flat_map app Lifecycle.run foldl].
  apply IH. destruct (notification_closes s next Hrest) as [Hpasses Hactive].
  by apply pass_settled_opens.
Qed.

(** C3, on the code.  After the first cycle, two notifications arrive
    before the bulk pass of the first settles: [close()] is called twice on
    the watcher of the first cycle, each of the two passes then opens a
    watcher of its own without closing anything, and two watchers are open
    though the global variable holds only the last. *)
Theorem overlapping_notifications_leave_two_watchers :
  let s := Lifecycle.run (Lifecycle.initialize example_config)
             [Lifecycle.PassSettled;
              Lifecycle.ConfigChanged example_config;
              Lifecycle.ConfigChanged example_config;
              Lifecycle.PassSettled;
              Lifecycle.PassSettled] in
  Lifecycle.trace s
  = [Lifecycle.Opened 0 ["fileX"; "fileY"];
     Lifecycle.Closed 0;
     Lifecycle.Closed 0;
     Lifecycle.Opened 1 ["fileX"; "fileY"];
     Lifecycle.Opened 2 ["fileX"; "fileY"]]
  ∧ Lifecycle.closes 0 (Lifecycle.trace s) = 2
  ∧ Lifecycle.active (Lifecycle.trace s) = [1; 2]
  ∧ held s = [2].
Proof. by vm_compute. Qed.

(** * Further properties of the code *)

(** ** Watch registration (lines 145-166) *)

Lemma Set_add_elem x y s : y ∈ Index.Set_add x s ↔ y = x ∨ y ∈ s.
Proof.
  unfold Index.Set_add. case_decide as Hin.
  - split; [by right|]. by intros [->|?].
  - rewrite elem_of_app, list_elem_of_singleton. tauto.
Qed.

Lemma Set_add_NoDup x s : NoDup s → NoDup (Index.Set_add x s).
Proof.
  intros Hs. unfold Index.Set_add. case_decide as Hin; [done|].
  apply NoDup_app. split; [done|]. split; [|apply NoDup_singleton].
  intros y Hy Hyx. apply list_elem_of_singleton in Hyx as ->. done.
Qed.

Lemma record_endpoint_is_Some filename endpointUrl (m : gmap string (list string)) f :
  is_Some (Index.record_endpoint filename endpointUrl m !! f)
  ↔ f = filename ∨ is_Some (m !! f).
Proof.
  destruct (decide (filename = f)) as [->|Hne].
  - rewrite record_endpoint_same. cbn. split; [by left|]. eauto.
  - rewrite record_endpoint_other by done. split; [by right|].
    by intros [->|?].
Qed.

Lemma visit_workflow_keys endpoint acc workflowConfig :
  files_are_keys acc → files_are_keys (Index.visit_workflow endpoint acc workflowConfig).
Proof.
  intros [Hnodup Hkeys]. split; cbn.
  - by apply Set_add_NoDup.
  - intros f. rewrite Set_add_elem, record_endpoint_is_Some, Hkeys. done.
Qed.

Lemma collect_keys eps : files_are_keys (Index.collect eps).
Proof.
  unfold Index.collect.
  assert (files_are_keys ([], ∅)) as Hstart.
  { split; [constructor|]. intros f. cbn. rewrite lookup_empty.
    split; [by intros ?%not_elem_of_nil|by intros [? ?]]. }
  revert Hstart. generalize (([], ∅) : Index.Collected).
  induction eps as [|ep eps IH]; intros acc Hacc; [done|].
  cbn [foldl]. apply IH. unfold Index.visit_endpoint.
  revert acc Hacc. induction (workflows_or_empty ep) as [|wf wfs IHw]; intros acc Hacc;
    [done|].
  cbn [foldl]. by apply IHw, visit_workflow_keys.
Qed.

Lemma referencing_nonempty eps filename :
  Index.referencing eps filename ≠ []
  ↔ ∃ endpoint workflowConfig,
      endpoint ∈ eps ∧ workflowConfig ∈ workflows_or_empty endpoint
      ∧ workflow workflowConfig = filename.
Proof.
  split.
  - intros Hne. destruct (Index.referencing eps filename) as [|u urls] eqn:Hrefs; [done|].
    assert (u ∈ Index.referencing eps filename) as Hu by (rewrite Hrefs; by left).
    apply list_elem_of_In, in_flat_map in Hu as (ep & Hep & Hu).
    apply in_flat_map in Hu as (wf & Hwf & Hu).
    exists ep, wf. split; [by apply list_elem_of_In|]. split; [by apply list_elem_of_In|].
    by case_decide.
  - intros (ep & wf & Hep & Hwf & Heq) Hnil.
    assert (url ep ∈ Index.referencing eps filename) as Hin; [|by rewrite Hnil in Hin; inversion Hin].
    apply list_elem_of_In, in_flat_map. exists ep. split; [by apply list_elem_of_In|].
    apply in_flat_map. exists wf. split; [by apply list_elem_of_In|].
    rewrite decide_True by done. by left.
Qed.

(** X1. Watch registration: the paths [setupFileWatchers] hands to the
    watcher are pairwise distinct, they are exactly the keys of the index,
    and a path is among them exactly when some workflow entry of some
    endpoint names it; no watcher is created exactly when no endpoint has a
    workflow entry. *)
Theorem watched_paths_are_the_index_keys :
  ∀ (eps : list EndpointConfig),
    NoDup (Index.workflowFiles eps)
    ∧ (∀ filename,
          filename ∈ Index.workflowFiles eps
          ↔ is_Some (Index.fileToEndpoints eps !! filename))
    ∧ (∀ filename,
          filename ∈ Index.workflowFiles eps
          ↔ ∃ endpoint workflowConfig,
              endpoint ∈ eps ∧ workflowConfig ∈ workflows_or_empty endpoint
              ∧ workflow workflowConfig = filename)
    ∧ (∀ s,
          endpoints (Lifecycle.configuration s) = eps →
          ((Lifecycle.setupFileWatchers s).1 = None
           ↔ ∀ endpoint, endpoint ∈ eps → workflows_or_empty endpoint = [])).
Proof.
  intros eps. destruct (collect_keys eps) as [Hnodup Hkeys].
  assert (∀ filename,
             filename ∈ Index.workflowFiles eps
             ↔ ∃ endpoint workflowConfig,
                 endpoint ∈ eps ∧ workflowConfig ∈ workflows_or_empty endpoint
                 ∧ workflow workflowConfig = filename) as Hnamed.
  { intros filename. unfold Index.workflowFiles. rewrite Hkeys.
    change ((Index.collect eps).2) with (Index.fileToEndpoints eps).
    rewrite fileToEndpoints_lookup, <- referencing_nonempty.
    destruct (Index.referencing eps filename); cbn.
    - split; [by intros [? ?]|done].
    - split; [done|eauto]. }
  split; [exact Hnodup|]. split; [exact Hkeys|]. split; [exact Hnamed|].
  intros s Hs. unfold Lifecycle.setupFileWatchers. rewrite Hs.
  destruct (Index.workflowFiles eps) as [|f files] eqn:Hfiles; cbn.
  - split; [|done]. intros _ ep Hep.
    destruct (workflows_or_empty ep) as [|wf wfs] eqn:Hwfs; [done|].
    assert (workflow wf ∈ @nil string) as Habsurd; [|by inversion Habsurd].
    apply Hnamed. exists ep, wf. rewrite Hwfs. split; [done|]. split; [by left|done].
  - split; [done|]. intros Hall.
    assert (f ∈ f :: files) as Hf by by left.
    apply Hnamed in Hf as (ep & wf & Hep & Hwf & _).
    rewrite (Hall ep Hep) in Hwf. inversion Hwf.
Qed.

Lemma watched_paths_are_the_index_keys_witness :
  (Lifecycle.setupFileWatchers
     (Lifecycle.initialize
        {| verbose := false;
           endpoints := [ {| url := "endpointC"; workflows := None |} ] |})).1
  = None.
Proof.
  destruct (watched_paths_are_the_index_keys
              [ {| url := "endpointC"; workflows := None |} ])
    as (_ & _ & _ & Hnone).
  apply (Hnone (Lifecycle.initialize
                  {| verbose := false;
                     endpoints := [ {| url := "endpointC"; workflows := None |} ] |}));
    [reflexivity|].
  intros endpoint Hep. apply list_elem_of_singleton in Hep as ->. reflexivity.
Defined.

(** ** Reloads against the configuration (lines 116-142, 178-189) *)

(** X2. Every URL the index binds to a path is the URL of a configured
    endpoint, so while the configuration is the one the index was built
    from, the lookup in [executeWorkflowsForEndpoint] finds an endpoint with
    that URL and its not-found branch is not taken. *)
Theorem indexed_urls_are_configured :
  ∀ (config : Config) (filename : string) (urls : list string),
    Index.fileToEndpoints (endpoints config) !! filename = Some urls →
    urls ≠ []
    ∧ Forall (λ endpointUrl,
                ∃ endpoint,
                  find_endpoint config endpointUrl = Some endpoint
                  ∧ endpoint ∈ endpoints config
                  ∧ url endpoint = endpointUrl) urls.
Proof.
  intros config filename urls Hidx.
  destruct (indexed_urls _ _ _ Hidx) as [Hrefs Hurls]. split.
  - rewrite fileToEndpoints_lookup in Hidx.
    destruct (Index.referencing (endpoints config) filename); [done|].
    by inversion Hidx.
  - eapply Forall_impl; [exact Hurls|]. intros u (ep & Hep & <-).
    destruct (find_endpoint_configured config ep Hep) as [found Hfound].
    exists found. split; [done|]. split.
    + apply find_some in Hfound as [Hin _]. by apply list_elem_of_In.
    + by eapply find_endpoint_url.
Qed.

Lemma indexed_urls_are_configured_witness :
  Forall (λ endpointUrl,
            ∃ endpoint,
              find_endpoint example_config endpointUrl = Some endpoint
              ∧ endpoint ∈ endpoints example_config
              ∧ url endpoint = endpointUrl) ["endpointA"; "endpointB"].
Proof.
  apply (indexed_urls_are_configured example_config "fileX" ["endpointA"; "endpointB"]).
  by vm_compute.
Defined.

(** X3. A reload for a URL that no configured endpoint has: one error line
    is printed; no request is sent, no file is read, and the event loop is
    left as it was. *)
Theorem reload_of_unknown_endpoint :
  ∀ (env : Env) (config : Config) (endpointUrl : string) (s : Loop),
    Forall (λ endpoint, url endpoint ≠ endpointUrl) (endpoints config) →
    executeWorkflowsForEndpoint env config endpointUrl s
    = {| events := [Log ("ERROR: Endpoint " +:+ endpointUrl
                         +:+ " not found in configuration")];
         after := s;
         outcome := Returned tt |}.
Proof.
  intros env config endpointUrl s Hnone.
  unfold executeWorkflowsForEndpoint.
  assert (List.find (λ ep, String.eqb (url ep) endpointUrl) (endpoints config) = None)
    as ->; [|done].
  induction Hnone as [|ep eps Hep _ IH]; [done|]. cbn.
  apply String.eqb_neq in Hep. by rewrite Hep.
Qed.

Lemma reload_of_unknown_endpoint_witness :
  calls (events (executeWorkflowsForEndpoint example_env example_config "endpointZ"
                   (idle 0 0)))
  = [].
Proof.
  rewrite (reload_of_unknown_endpoint example_env example_config "endpointZ" (idle 0 0));
    [reflexivity|].
  repeat constructor; done.
Defined.

(** X4. Endpoints that share a URL: the reload of that URL works on the
    first of them in configuration order, whatever follows it in the
    list; the workflows of a later endpoint with the same URL are neither
    loaded nor executed by it. *)
Theorem reload_takes_first_endpoint_with_url :
  ∀ (env : Env) (v : bool) (earlier later : list EndpointConfig)
    (endpoint : EndpointConfig) (n k : nat),
    Forall (λ other, url other ≠ url endpoint) earlier →
    let config := {| verbose := v; endpoints := earlier ++ endpoint :: later |} in
    let r := executeWorkflowsForEndpoint env config (url endpoint) (idle n k) in
    find_endpoint config (url endpoint) = Some endpoint
    ∧ calls (events r)
      = terminate_request (url endpoint)
        :: execute_calls env endpoint (workflows_or_empty endpoint)
    ∧ reads (events r)
      = map (λ workflowConfig, path_resolve env (workflow workflowConfig))
            (workflows_or_empty endpoint).
Proof.
  intros env v earlier later endpoint n k Hearlier config r.
  assert (find_endpoint config (url endpoint) = Some endpoint) as Hfind.
  { unfold find_endpoint, config; cbn [endpoints].
    induction Hearlier as [|other rest Hother _ IH]; cbn.
    - by rewrite String.eqb_refl.
    - apply String.eqb_neq in Hother. by rewrite Hother. }
  split; [exact Hfind|].
  destruct (executeWorkflowsForEndpoint_found env config (url endpoint) endpoint n k Hfind)
    as (segment & Hcycle & Hq & _).
  split.
  - subst r. rewrite <- calls_quiet, Hq. by apply (reload_cycle_calls env endpoint n).
  - subst r. rewrite <- reads_quiet, Hq. destruct Hcycle as (order & _ & ->).
    change (reads (?a :: ?b :: ?t)) with (reads [a; b] ++ reads t).
    rewrite reads_app. cbn [reads flat_map app settles].
    assert (reads (answered env order) = []) as ->.
    { clear. induction order as [|[p q] order IH]; [done|]. exact IH. }
    rewrite app_nil_r. clear.
    generalize (S n). induction (workflows_or_empty endpoint) as [|wf wfs IH];
      intros m; [done|].
    cbn [load_and_send map].
    destruct (execute_call_cases env endpoint wf) as [[_ ->]|[_ ->]]; cbn; by rewrite IH.
Qed.

Lemma reload_takes_first_endpoint_with_url_witness :
  calls (events (executeWorkflowsForEndpoint example_env
                   {| verbose := false;
                      endpoints :=
                        [] ++ {| url := "endpointA";
                                 workflows := Some [ {| workflow := "fileX"; port := 3000 |} ] |}
                        :: [ {| url := "endpointA";
                                workflows := Some [ {| workflow := "fileX"; port := 3005 |} ] |} ] |}
                   "endpointA" (idle 0 0)))
  = [terminate_request "endpointA"; execute_request "endpointA" 3000 (JObj [])].
Proof.
  apply (reload_takes_first_endpoint_with_url example_env false []
           [ {| url := "endpointA";
                workflows := Some [ {| workflow := "fileX"; port := 3005 |} ] |} ]
           {| url := "endpointA";
              workflows := Some [ {| workflow := "fileX"; port := 3000 |} ] |} 0 0).
  constructor.
Defined.

Lemma reload_loop_any env config urls n k :
  ∃ t n' k',
    calls t = flat_map (reload_requests env config) urls
    ∧ yields
        (for_each urls (λ endpointUrl,
           try_catch (executeWorkflowsForEndpoint env config endpointUrl)
             (λ error, log ("ERROR: Failed to reload endpoint " +:+ endpointUrl +:+ ":")
                           [message error])))
        (idle n k) t (idle n' k') tt.
Proof.
  revert n k. induction urls as [|u urls IH]; intros n k.
  - exists [], n, k. split; [done|]. apply yields_ret.
  - cbn [for_each flat_map]. unfold reload_requests at 1.
    destruct (find_endpoint config u) as [endpoint|] eqn:Hfind.
    + destruct (executeWorkflowsForEndpoint_found env config u endpoint n k Hfind)
        as (segment & Hcycle & Hy).
      edestruct IH as (t & n' & k' & Hcalls & Hloop).
      exists (segment ++ t), n', k'. split.
      * by rewrite calls_app, Hcalls, (reload_cycle_calls env endpoint n).
      * eapply yields_bind; [apply yields_try, Hy|exact Hloop].
    + destruct (IH n k) as (t & n' & k' & Hcalls & Hloop).
      exists t, n', k'. split; [done|].
      eapply (yields_bind _ _ _ [] _ tt);
        [apply yields_try, executeWorkflowsForEndpoint_missing, Hfind|exact Hloop].
Qed.

(** X5. A change event against any index, also one built from an earlier
    configuration: the handler returns with no call left in flight, and
    the requests it sends are, URL by URL in the order of the index entry,
    those of the endpoint the current configuration has under that URL; a
    URL that is no longer configured contributes nothing and does not stop
    the URLs after it. *)
Theorem change_handling_on_any_index :
  ∀ (env : Env) (config : Config) (index : gmap string (list string))
    (filename : string) (n k : nat),
    let r := onChange env config index filename (idle n k) in
    outcome r = Returned tt
    ∧ in_flight (after r) = []
    ∧ calls (events r)
      = flat_map (reload_requests env config) (default [] (index !! filename)).
Proof.
  intros env config index filename n k r.
  destruct (reload_loop_any env config (default [] (index !! filename)) n k)
    as (t & n' & k' & Hcalls & Hq & Hs & Ho).
  subst r. unfold onChange, onChange_with. rewrite log_then.
  cbn [events after outcome calls flat_map app].
  change (flat_map _ (events ?x)) with (calls (events x)).
  rewrite Ho, Hs. split; [done|]. split; [done|].
  by rewrite <- calls_quiet, Hq.
Qed.

(** X6. What the endpoints answer does not change what is asked of them:
    the requests of a reload and of the handling of a change event are the
    same under any other network and any other order of settlement.  In
    particular a failed terminate does not keep the execute requests of the
    endpoint from being sent. *)
Theorem reload_requests_ignore_the_answers :
  ∀ (env : Env) (config : Config) (index : gmap string (list string))
    (filename endpointUrl : string) (n k n' k' : nat)
    (fetch' : nat → Request → FetchOutcome) (next_ready' : nat → nat),
    let env' := with_network env fetch' next_ready' in
    calls (events (executeWorkflowsForEndpoint env' config endpointUrl (idle n' k')))
    = calls (events (executeWorkflowsForEndpoint env config endpointUrl (idle n k)))
    ∧ calls (events (onChange env' config index filename (idle n' k')))
      = calls (events (onChange env config index filename (idle n k))).
Proof.
  intros env config index filename endpointUrl n k n' k' fetch' next_ready' env'.
  split.
  - by rewrite !executeWorkflowsForEndpoint_calls.
  - destruct (change_handling_on_any_index env config index filename n k)
      as (_ & _ & ->).
    destruct (change_handling_on_any_index env' config index filename n' k')
      as (_ & _ & ->).
    reflexivity.
Qed.

(** ** The terminate call (lines 20-40) *)

(** X7. Terminate request shape: awaiting [terminateEndpoint] sends exactly
    one request, a POST to http://{url}/api/bentoml/serve/terminate with
    the JSON content type and no body; its promise settles before the
    caller goes on, and the caller goes on whether it holds true or
    false. *)
Theorem terminate_request_shape :
  ∀ (env : Env) (config : Config) (url : string) (n k : nat),
    let r := await env (terminateEndpoint config url) (idle n k) in
    let req := {| req_url := "http://" +:+ url +:+ "/api/bentoml/serve/terminate";
                  req_method := "POST";
                  req_headers := [("Content-Type", "application/json")];
                  req_body := None |} in
    quiet (events r) = [Fetch n req; Settled n (Returned (succeeded (fetch env n req)))]
    ∧ after r = idle (S n) (S k)
    ∧ outcome r = Returned tt.
Proof.
  intros env config url n k r req.
  exact (await_yields env _ _ n k (terminate_client config url)).
Qed.

(** ** The execute half of the bulk pass (lines 95-114) *)

Lemma each_awaited_load_and_serve env endpoint n wfs t :
  each_awaited t → each_awaited (load_and_serve env endpoint n wfs ++ t).
Proof.
  intros Ht. revert n. induction wfs as [|wf wfs IH]; intros n; [done|].
  cbn [load_and_serve].
  destruct (execute_call_cases env endpoint wf) as [[_ ->]|[_ ->]]; cbn; [apply IH|].
  split; [done|apply IH].
Qed.

Lemma each_awaited_serve_all env n eps : each_awaited (serve_all env n eps).
Proof.
  revert n. induction eps as [|ep eps IH]; intros n; [done|].
  cbn [serve_all]. apply each_awaited_load_and_serve, IH.
Qed.

(** X8. The execute half of the bulk pass works through the workflows one
    at a time: every file is read, in configuration order, and each execute
    request is followed at once by the settlement of its own promise,
    before the next file is read or the next request is sent; no call is
    left in flight. *)
Theorem bulk_executes_one_at_a_time :
  ∀ (env : Env) (config : Config) (n k : nat),
    let r := executeAllWorkflows env config (idle n k) in
    outcome r = Returned tt
    ∧ each_awaited (quiet (events r))
    ∧ reads (events r) = all_paths env (endpoints config)
    ∧ after r = idle (n + length (calls (events r))) (k + length (calls (events r))).
Proof.
  intros env config n k r.
  destruct (executeAllWorkflows_yields env config n k) as (Hq & Hs & Ho).
  split; [exact Ho|]. split; [|split].
  - subst r. rewrite Hq. apply each_awaited_serve_all.
  - subst r. by rewrite <- reads_quiet, Hq, reads_serve_all.
  - subst r. by rewrite executeAllWorkflows_calls, Hs.
Qed.

(** ** Promises of the bulk pass (lines 85-114, 195-202) *)

Lemma fetched_app t1 t2 :
  fetched_promises (t1 ++ t2) = fetched_promises t1 ++ fetched_promises t2.
Proof. apply flat_map_app. Qed.

Lemma settled_app t1 t2 :
  settled_promises (t1 ++ t2) = settled_promises t1 ++ settled_promises t2.
Proof. apply flat_map_app. Qed.

Lemma fetched_sent batch : fetched_promises (sent batch) = map fst batch.
Proof. induction batch as [|[p r] batch IH]; cbn; [done|]. f_equal. exact IH. Qed.

Lemma settled_sent batch : settled_promises (sent batch) = [].
Proof. induction batch as [|[p r] batch IH]; cbn; [done|]. exact IH. Qed.

Lemma fetched_answered env batch : fetched_promises (answered env batch) = [].
Proof. induction batch as [|[p r] batch IH]; cbn; [done|]. exact IH. Qed.

Lemma settled_answered env batch : settled_promises (answered env batch) = map fst batch.
Proof. induction batch as [|[p r] batch IH]; cbn; [done|]. f_equal. exact IH. Qed.

Lemma promises_load_and_serve env endpoint n wfs :
  fetched_promises (load_and_serve env endpoint n wfs)
  = seq n (length (execute_calls env endpoint wfs))
  ∧ settled_promises (load_and_serve env endpoint n wfs)
    = seq n (length (execute_calls env endpoint wfs)).
Proof.
  revert n. induction wfs as [|wf wfs IH]; intros n; [done|].
  cbn [load_and_serve execute_calls flat_map].
  destruct (execute_call_cases env endpoint wf) as [[_ ->]|[_ ->]]; cbn.
  - apply IH.
  - destruct (IH (S n)) as [Hf Hs].
    change (flat_map _ ?t = ?x) with (fetched_promises t = x) in Hf.
    split; f_equal; [exact Hf|exact Hs].
Qed.

Lemma promises_serve_all env n eps :
  fetched_promises (serve_all env n eps) = seq n (length (all_execute_calls env eps))
  ∧ settled_promises (serve_all env n eps) = seq n (length (all_execute_calls env eps)).
Proof.
  revert n. induction eps as [|ep eps IH]; intros n; [done|].
  cbn [serve_all all_execute_calls flat_map].
  destruct (promises_load_and_serve env ep n (workflows_or_empty ep)) as [Hf Hs].
  destruct (IH (n + length (execute_calls env ep (workflows_or_empty ep)))) as [Hf' Hs'].
  rewrite fetched_app, settled_app, Hf, Hs, Hf', Hs', length_app, seq_app. done.
Qed.

Lemma fetched_quiet t : fetched_promises (quiet t) = fetched_promises t.
Proof. induction t as [|e t IH]; [reflexivity|]. destruct e; simpl; by rewrite ?IH. Qed.

Lemma settled_quiet t : settled_promises (quiet t) = settled_promises t.
Proof. induction t as [|e t IH]; [reflexivity|]. destruct e; simpl; by rewrite ?IH. Qed.

(** X9. Nothing is left behind by the bulk pass: it returns on an idle
    event loop; the promises whose requests it sent are numbered
    consecutively, one per request, and each of them settled exactly once
    before the pass returned. *)
Theorem bulk_pass_settles_every_promise :
  ∀ (env : Env) (config : Config) (n k : nat),
    let r := runOrchestration env config (idle n k) in
    let total := length (calls (events r)) in
    after r = idle (n + total) (k + total)
    ∧ fetched_promises (events r) = seq n total
    ∧ settled_promises (events r) ≡ₚ seq n total
    ∧ total = (length (endpoints config)
               + length (all_execute_calls env (endpoints config)))%nat.
Proof.
  intros env config n k r total.
  destruct (runOrchestration_yields env config n k) as (order & Hperm & Hq & Hs & _).
  assert (total = (length (endpoints config)
                   + length (all_execute_calls env (endpoints config)))%nat) as Htotal.
  { subst total r. rewrite runOrchestration_calls, length_app.
    unfold terminate_requests. by rewrite length_map. }
  destruct (promises_serve_all env (n + length (endpoints config)) (endpoints config))
    as [Hf Hse].
  assert (map fst (numbered n (terminate_requests (endpoints config)))
          = seq n (length (endpoints config))) as Hbatch.
  { rewrite numbered_fst. unfold terminate_requests. by rewrite length_map. }
  split; [|split; [|split; [|exact Htotal]]].
  - subst r. rewrite Hs, Htotal. f_equal; lia.
  - subst r. rewrite <- fetched_quiet, Hq, !fetched_app, fetched_sent, fetched_answered, Hf.
    rewrite Hbatch, Htotal, seq_app. done.
  - subst r. rewrite <- settled_quiet, Hq, !settled_app, settled_sent, settled_answered, Hse.
    rewrite Htotal, seq_app, <- Hbatch. cbn [app].
    apply Permutation_app; [|done]. by apply Permutation_map.
Qed.

(** ** What the client and the loader log (lines 9-17, 20-82) *)

Lemma log_calls_app t1 t2 : log_calls (t1 ++ t2) = (log_calls t1 + log_calls t2)%nat.
Proof. unfold log_calls. by rewrite List.filter_app, length_app. Qed.

(** The whole trace of awaiting a client call on an idle loop. *)
Lemma await_events env call req n k :
  outcome (before call tt) = Returned req →
  (∃ b, outcome (finish call (fetch env n req)) = Returned b) →
  events (await env call (idle n k))
  = events (before call tt)
    ++ [Fetch n req]
    ++ events (finish call (fetch env n req))
    ++ [Settled n (outcome (finish call (fetch env n req)))].
Proof.
  intros Hbefore [b Hb].
  set (c := flying env call n req).
  set (s1 := {| created := S n; choices := k; in_flight := [c] |}).
  assert (spawn env call (idle n k)
          = {| events := events (before call tt) ++ [Fetch n req];
               after := s1; outcome := Returned n |}) as Hspawn.
  { unfold spawn. by rewrite Hbefore. }
  assert (Promise_all env [n] s1
          = {| events := events (completion c) ++ [settlement c];
               after := idle (S n) (S k);
               outcome := Returned tt |}) as Hall.
  { unfold Promise_all. cbn [in_flight s1 length until_settled].
    rewrite (not_all_settled s1 c [n]) by (by left).
    unfold mbind, task_mbind, task_bind.
    rewrite (settle_next_run env s1 0 c);
      [|cbn [in_flight s1 length]; symmetry; apply Nat.mod_1_r|done].
    cbn [events after outcome completion c flying]. rewrite Hb.
    cbn [until_settled mret task_mret task_ret events after outcome created choices
         in_flight s1 delete].
    by rewrite app_nil_r. }
  unfold await, mbind, task_mbind, task_bind.
  rewrite Hspawn. cbn [events after outcome]. rewrite Hall. cbn [events after outcome].
  by rewrite <- !app_assoc.
Qed.

Lemma terminate_log_calls config url o :
  log_calls (events (before (terminateEndpoint config url) tt))
  = (if verbose config then 1 else 0)
  ∧ log_calls (events (finish (terminateEndpoint config url) o))
    = (if succeeded o then if verbose config then 1 else 0 else 1).
Proof.
  split.
  - unfold_task. by destruct (verbose config).
  - destruct o as [e|status statusText [body|e]]; unfold_task; [done| |].
    + destruct (response_ok status), (verbose config); done.
    + destruct (response_ok status); done.
Qed.

Lemma execute_log_calls config url port document o :
  log_calls (events (before (executeWorkflow config url port document) tt))
  = (if verbose config then 1 else 0)
  ∧ log_calls (events (finish (executeWorkflow config url port document) o))
    = (if succeeded o then if verbose config then 1 else 0 else 1).
Proof.
  split.
  - unfold_task. by destruct (verbose config).
  - destruct o as [e|status statusText [body|e]]; unfold_task; [done| |].
    + destruct (response_ok status), (verbose config); done.
    + destruct (response_ok status); done.
Qed.

Lemma client_call_trace env call req n k :
  client_call call req →
  events (await env call (idle n k))
  = events (before call tt)
    ++ [Fetch n req]
    ++ events (finish call (fetch env n req))
    ++ [Settled n (Returned (succeeded (fetch env n req)))]
  ∧ quiet (events (before call tt)) = []
  ∧ quiet (events (finish call (fetch env n req))) = [].
Proof.
  intros [(Hq & _ & Hbefore) Hfinish].
  destruct (Hfinish (fetch env n req)) as [Hfq Hfo].
  split; [|by split].
  rewrite (await_events env call req n k) by eauto. by rewrite Hfo.
Qed.

(** X10. What a client call logs, counted in calls of [console.log] over
    the whole awaited call: before the request is sent, one call with
    [verbose] on and none with it off; between the request and the
    settlement of the promise, exactly one call when the exchange fails,
    whether [verbose] is set or not, and on success one call with
    [verbose] on and none with it off.  So a failure is always logged, and
    with [verbose] off nothing else is. *)
Theorem client_logs_every_failure :
  ∀ (env : Env) (config : Config) (url : string) (port : Z) (document : json)
    (n k : nat),
    Forall (λ '(call, req),
              let r := await env call (idle n k) in
              let o := fetch env n req in
              let detail := if verbose config then 1 else 0 in
              ∃ announcement report,
                events r
                = announcement ++ [Fetch n req] ++ report
                  ++ [Settled n (Returned (succeeded o))]
                ∧ quiet announcement = []
                ∧ quiet report = []
                ∧ log_calls announcement = detail
                ∧ log_calls report = (if succeeded o then detail else 1))
           [(terminateEndpoint config url, terminate_request url);
            (executeWorkflow config url port document,
             execute_request url port document)].
Proof.
  intros env config url port document n k.
  repeat constructor.
  - destruct (client_call_trace env _ _ n k (terminate_client config url))
      as (Hev & Hqa & Hqr).
    destruct (terminate_log_calls config url (fetch env n (terminate_request url)))
      as [Ha Hr].
    eexists _, _. split; [exact Hev|]. split; [exact Hqa|]. split; [exact Hqr|].
    split; [exact Ha|exact Hr].
  - destruct (client_call_trace env _ _ n k (execute_client config url port document))
      as (Hev & Hqa & Hqr).
    destruct (execute_log_calls config url port document
                (fetch env n (execute_request url port document))) as [Ha Hr].
    eexists _, _. split; [exact Hev|]. split; [exact Hqa|]. split; [exact Hqr|].
    split; [exact Ha|exact Hr].
Qed.

(** X11. The loader touches one file and logs every failure: it reads the
    resolved path of the file, once, sends nothing and leaves the event
    loop as it was; when the file is read and parsed the read is its only
    event, and when reading or parsing throws the read is followed by
    exactly one call of [console.log] (the loader does not consult
    [verbose]). *)
Theorem loader_reads_once_and_logs_failure :
  ∀ (env : Env) (filename : string) (s : Loop),
    let r := loadWorkflowFile env filename s in
    after r = s
    ∧ reads (events r) = [path_resolve env filename]
    ∧ calls (events r) = []
    ∧ (∀ value, holds_json env filename value →
          events r = [ReadFile (path_resolve env filename)])
    ∧ (load_fails env filename →
          ∃ line, events r = [ReadFile (path_resolve env filename); Log line]).
Proof.
  intros env filename s r. subst r.
  unfold loadWorkflowFile, holds_json, load_fails, fs_readFileSync, parse. unfold_task.
  destruct (readFileSync env (path_resolve env filename)) as [content|e]; cbn.
  - destruct (JSON_parse env content) as [value|e] eqn:Hparse; cbn.
    + repeat split. done.
    + repeat split.
      * intros value (content' & [= <-] & Hvalue). congruence.
      * intros _. eauto.
  - repeat split.
    + by intros value (content & ? & _).
    + intros _. eauto.
Qed.

Lemma loader_reads_once_and_logs_failure_witness :
  events (loadWorkflowFile example_env "fileX" (idle 0 0)) = [ReadFile "/srv/fileX"]
  ∧ ∃ line,
      events (loadWorkflowFile example_env "gone" (idle 0 0))
      = [ReadFile "/srv/gone"; Log line].
Proof.
  split.
  - destruct (loader_reads_once_and_logs_failure example_env "fileX" (idle 0 0))
      as (_ & _ & _ & Hok & _).
    apply (Hok (JObj [])). exists "{}". by split.
  - destruct (loader_reads_once_and_logs_failure example_env "gone" (idle 0 0))
      as (_ & _ & _ & _ & Hfail).
    apply Hfail. exact I.
Defined.
(** ** Notifications that do not overlap (lines 205-237) *)

Lemma opened_snoc t e :
  opened (t ++ [e])
  = opened t ++ match e with
                | Lifecycle.Opened id _ => [id]
                | Lifecycle.Closed _ => []
                end.
Proof. unfold opened. rewrite flat_map_app. cbn. by rewrite app_nil_r. Qed.

Lemma closes_snoc id t e :
  Lifecycle.closes id (t ++ [e])
  = (Lifecycle.closes id t
     + match e with
       | Lifecycle.Closed w => if Nat.eqb w id then 1 else 0
       | Lifecycle.Opened _ _ => 0
       end)%nat.
Proof.
  unfold Lifecycle.closes. rewrite List.filter_app, length_app. f_equal.
  destruct e as [w paths|w]; cbn; [done|]. by destruct (Nat.eqb w id).
Qed.

Lemma active_in_opened t id : id ∈ Lifecycle.active t → id ∈ opened t.
Proof.
  revert id. induction t as [|e t IH] using rev_ind; intros id; [by intros ?%not_elem_of_nil|].
  rewrite active_snoc, opened_snoc. destruct e as [w paths|w].
  - rewrite !elem_of_app. intros [?|?]; [left; by apply IH|by right].
  - rewrite app_nil_r. intros [_ ?]%list_elem_of_filter. by apply IH.
Qed.

Lemma initial_pass_orderly c :
  orderly (Lifecycle.pass_settled (Lifecycle.initialize c)).
Proof.
  split; [apply initial_pass_at_rest|].
  unfold Lifecycle.pass_settled, Lifecycle.initialize, Lifecycle.setupFileWatchers, held.
  cbn. destruct (Nat.eqb _ 0); cbn.
  - split; [done|]. intros id. case_bool_decide as H; [|done].
    destruct H as [H _]. inversion H.
  - split; [done|]. intros id. case_bool_decide as H; [|done].
    destruct H as [Hin Hout]. contradiction.
Qed.

Lemma cycle_orderly s next :
  orderly s →
  orderly (Lifecycle.run s [Lifecycle.ConfigChanged next; Lifecycle.PassSettled]).
Proof.
  intros (Hrest & Hopened & Hcloses).
  split; [by apply (one_at_a_time_at_rest s [next])|].
  destruct Hrest as [Hpasses Hactive].
  assert (∀ id, id ∈ held s → id ∈ opened (Lifecycle.trace s)) as Hheld.
  { intros id Hid. apply active_in_opened. by rewrite Hactive. }
  cbn [Lifecycle.run foldl Lifecycle.step].
  unfold Lifecycle.onConfigChanged, Lifecycle.pass_settled, Lifecycle.setupFileWatchers.
  cbn [Lifecycle.passes Lifecycle.configuration Lifecycle.workflowWatcher
       Lifecycle.watchers Lifecycle.trace].
  rewrite Hpasses. unfold held in *.
  destruct (Lifecycle.workflowWatcher s) as [watcher|];
    destruct (Nat.eqb (length (Index.workflowFiles (endpoints next))) 0);
    cbn [Lifecycle.passes Lifecycle.configuration Lifecycle.workflowWatcher
         Lifecycle.watchers Lifecycle.trace Lifecycle.watcher_id fst snd];
    rewrite ?opened_snoc, ?app_nil_r, ?opened_snoc, ?seq_S, ?Hopened; cbn [Nat.add];
    (split; [done|]); intros id;
    rewrite ?closes_snoc, ?closes_snoc, Hcloses, ?Hopened;
    pose proof (Hheld (Lifecycle.watcher_id watcher)) as Hw || idtac;
    try (rewrite Hopened in Hw; specialize (Hw ltac:(by left));
         apply elem_of_seq in Hw);
    repeat case_bool_decide; try destruct (Nat.eqb_spec (Lifecycle.watcher_id watcher) id);
    try done; exfalso;
    repeat match goal with
           | H : _ ∧ _ |- _ => destruct H
           | H : ¬ (_ ∧ _) |- _ => apply not_and_l in H as [H|H]
           | H : _ ∈ _ ++ _ |- _ => apply elem_of_app in H as [H|H]
           | H : ¬ (_ ∈ _ ++ _) |- _ => rewrite elem_of_app in H
           | H : ¬ (_ ∨ _) |- _ => apply Decidable.not_or in H as [? ?]
           | H : _ ∈ [_] |- _ => apply list_elem_of_singleton in H
           | H : _ ∈ seq _ _ |- _ => apply elem_of_seq in H
           | H : ¬ (_ ∈ seq _ _) |- _ => rewrite elem_of_seq in H
           | H : ¬ (_ ∉ _) |- _ => apply dec_stable in H
           | H : _ ∉ [_] |- _ => rewrite list_elem_of_singleton in H
           | H : _ ∈ [] |- _ => inversion H
           end;
    try lia; try tauto; try (subst; lia).
Qed.

Lemma one_at_a_time_orderly s nexts :
  orderly s → orderly (Lifecycle.run s (one_at_a_time nexts)).
Proof.
  revert s. induction nexts as [|next nexts IH]; intros s Hs; [done|].
  cbn [one_at_a_time flat_map app Lifecycle.run foldl].
  apply IH. by apply (cycle_orderly s next).
Qed.

(** X12. Notifications that do not overlap keep the watchers in order:
    when the first bulk pass has settled and every later notification
    arrives only after the pass of the previous one has settled, then no
    bulk pass is running, the only open watcher is the one in
    [global.workflowWatcher] (none if the configuration has no workflow
    file), every watcher opened before it has been closed exactly once,
    and no watcher has been closed twice. *)
Theorem notifications_one_at_a_time :
  ∀ (c : Config) (nexts : list Config),
    let s := Lifecycle.run (Lifecycle.initialize c)
               (Lifecycle.PassSettled :: one_at_a_time nexts) in
    Lifecycle.passes s = 0
    ∧ Lifecycle.active (Lifecycle.trace s) = held s
    ∧ (length (Lifecycle.active (Lifecycle.trace s)) ≤ 1)%nat
    ∧ (∀ id, (Lifecycle.closes id (Lifecycle.trace s) ≤ 1)%nat)
    ∧ (∀ id, id ∈ opened (Lifecycle.trace s) → id ∉ held s →
             Lifecycle.closes id (Lifecycle.trace s) = 1)
    ∧ (∀ id, id ∈ held s → Lifecycle.closes id (Lifecycle.trace s) = 0).
Proof.
  intros c nexts s.
  assert (orderly s) as ([Hpasses Hactive] & Hopened & Hcloses).
  { subst s. cbn [Lifecycle.run foldl Lifecycle.step].
    apply one_at_a_time_orderly, initial_pass_orderly. }
  split; [exact Hpasses|]. split; [exact Hactive|]. split; [|split; [|split]].
  - rewrite Hactive. unfold held. destruct (Lifecycle.workflowWatcher s); cbn; lia.
  - intros id. rewrite Hcloses. case_bool_decide; lia.
  - intros id Hin Hout. rewrite Hcloses. by rewrite bool_decide_eq_true_2.
  - intros id Hin. rewrite Hcloses. rewrite bool_decide_eq_false_2; [done|].
    intros [_ Hout]. contradiction.
Qed.

Lemma notifications_one_at_a_time_witness :
  Lifecycle.closes 0
    (Lifecycle.trace
       (Lifecycle.run (Lifecycle.initialize example_config)
          (Lifecycle.PassSettled :: one_at_a_time [example_config; example_config])))
  = 1.
Proof.
  destruct (notifications_one_at_a_time example_config [example_config; example_config])
    as (_ & _ & _ & _ & Hclosed & _).
  apply Hclosed.
  - by vm_compute; left.
  - vm_compute. intros H. apply elem_of_cons in H as [H|H]; [done|inversion H].
Defined.

(** ** How many requests a bulk pass sends (lines 85-114) *)

Lemma execute_calls_bound env endpoint wfs :
  (length (execute_calls env endpoint wfs) ≤ length wfs)%nat
  ∧ (Forall (λ workflowConfig, truthy (loaded env (workflow workflowConfig)) = true) wfs →
     length (execute_calls env endpoint wfs) = length wfs).
Proof.
  induction wfs as [|wf wfs [IHle IHeq]]; [done|].
  cbn [execute_calls flat_map length]. rewrite length_app.
  change (flat_map (execute_call env endpoint) wfs) with (execute_calls env endpoint wfs).
  destruct (execute_call_cases env endpoint wf) as [[Ht ->]|[Ht ->]]; cbn [length].
  - split; [lia|]. intros Hall. inversion Hall; congruence.
  - split; [lia|]. intros Hall. inversion Hall; subst. rewrite IHeq by done. lia.
Qed.

(** X13. The size of a bulk pass: it sends one terminate request per
    endpoint and at most one execute request per workflow entry, so between
    N and N + W requests for N endpoints with W workflow entries in all;
    it sends all N + W when every workflow file holds a truthy document,
    and none at all for a configuration without endpoints. *)
Theorem bulk_pass_request_count :
  ∀ (env : Env) (config : Config) (n k : nat),
    let sent_in_all := length (calls (events (runOrchestration env config (idle n k)))) in
    let N := length (endpoints config) in
    let W := length (all_workflows (endpoints config)) in
    (N ≤ sent_in_all ≤ N + W)%nat
    ∧ (Forall (λ workflowConfig, truthy (loaded env (workflow workflowConfig)) = true)
              (all_workflows (endpoints config)) →
       sent_in_all = (N + W)%nat).
Proof.
  intros env config n k sent_in_all N W. subst sent_in_all N W.
  rewrite runOrchestration_calls, length_app.
  unfold terminate_requests. rewrite length_map.
  assert ((length (all_execute_calls env (endpoints config))
           ≤ length (all_workflows (endpoints config)))%nat
          ∧ (Forall (λ workflowConfig,
                       truthy (loaded env (workflow workflowConfig)) = true)
                    (all_workflows (endpoints config)) →
             length (all_execute_calls env (endpoints config))
             = length (all_workflows (endpoints config)))) as [Hle Heq].
  { induction (endpoints config) as [|ep eps [IHle IHeq]]; [done|].
    cbn [all_execute_calls all_workflows flat_map]. rewrite !length_app.
    destruct (execute_calls_bound env ep (workflows_or_empty ep)) as [Hle Heq].
    split.
    - unfold all_execute_calls, all_workflows in IHle. lia.
    - intros Hall. apply Forall_app in Hall as [Hep Heps].
      rewrite Heq by done. unfold all_execute_calls, all_workflows in IHeq.
      by rewrite IHeq. }
  split; [lia|]. intros Hall. by rewrite Heq.
Qed.

Lemma bulk_pass_request_count_witness :
  length (calls (events (runOrchestration example_env
                           {| verbose := false;
                              endpoints :=
                                [ {| url := "endpointA";
                                     workflows :=
                                       Some [ {| workflow := "fileX"; port := 3000 |} ] |} ] |}
                           (idle 0 0))))
  = 2.
Proof.
  destruct (bulk_pass_request_count example_env
              {| verbose := false;
                 endpoints :=
                   [ {| url := "endpointA";
                        workflows :=
                          Some [ {| workflow := "fileX"; port := 3000 |} ] |} ] |} 0 0)
    as [_ Hall].
  apply Hall. repeat constructor.
Defined.
